(** * venus: the source partitioner ([src/util/source-handler/partition.ts])

    A shallow embedding of [partition] and of its four region matchers,
    together with the three extraction patterns, followed by the
    properties of the scanner.

    Text is a JavaScript string: a sequence of UTF-16 code units, indexed
    by code unit.  A code unit is a number ([N]); a string is a list of
    them.  [charAt] out of range is the empty string in JavaScript; here
    it is [None]. *)

From Stdlib Require Import NArith Ascii String Lia.
From stdpp Require Import base option list gmap sorting.

Local Open Scope nat_scope.

(** ** Characters and strings *)

Abbreviation char := N (only parsing).
Abbreviation str := (list N) (only parsing).

Definition TAB : char := 9%N.
Definition NL : char := 10%N.
Definition SPACE : char := 32%N.
Definition DQUOTE : char := 34%N.
Definition HASH : char := 35%N.
Definition SQUOTE : char := 39%N.
Definition STAR : char := 42%N.
Definition SLASH : char := 47%N.
Definition BACKSLASH : char := 92%N.

(** The code units of an ASCII text, to write inputs down. *)
Definition txt (s : string) : str :=
  map N_of_ascii (list_ascii_of_string s).

Definition chr (a : ascii) : char := N_of_ascii a.

Definition eqc (a b : char) : bool := (a =? b)%N.

(** [/^[\t ]$/] *)
Definition isBlank (c : char) : bool := eqc c TAB || eqc c SPACE.

(** [/^[\n]$/] *)
Definition isNewline (c : char) : bool := eqc c NL.

(** [/^\s$/]: ECMAScript white space and line terminators. *)
Definition isSpace (c : char) : bool :=
  ((9 <=? c) && (c <=? 13) || (c =? 32) || (c =? 160) || (c =? 5760)
   || (8192 <=? c) && (c <=? 8202) || (c =? 8232) || (c =? 8233)
   || (c =? 8239) || (c =? 8287) || (c =? 12288) || (c =? 65279))%N.

(** [\w]: [A-Za-z0-9_] *)
Definition isWord (c : char) : bool :=
  ((48 <=? c) && (c <=? 57) || (65 <=? c) && (c <=? 90) || (c =? 95)
   || (97 <=? c) && (c <=? 122))%N.

(** [regex.test(content.charAt(i))] on a one-character class: the empty
    string that [charAt] gives out of range matches no class. *)
Definition test (p : char -> bool) (o : option char) : bool :=
  match o with
  | Some c => p c
  | None => false
  end.

(** [content.slice(a, b)]: empty when [b <= a], cut at the end of the text. *)
Definition slice (text : str) (a b : nat) : str := take (b - a) (drop a text).

(** [rest.startsWith(tok)], where [rest] is the text from some position on:
    [content.startsWith(tok, i)] is [startsWith tok (drop i content)]. *)
Fixpoint startsWith (tok rest : str) : bool :=
  match tok, rest with
  | [], _ => true
  | t :: tok', c :: rest' => eqc t c && startsWith tok' rest'
  | _ :: _, [] => false
  end.

(** ** Results

    [logger.fatal] followed by [process.exit(-1)] ends the run; the two
    places that do so differ by their message.  [Timeout] is the model's
    own: the scanner's loop is run on fuel. *)

Inductive failure :=
  | UnterminatedLiteral        (* 'bad source file. the quotation mark is not closed.' *)
  | UnterminatedBlockComment.  (* 'bad source file. the block comment is not closed.' *)

Inductive outcome (A : Type) :=
  | Done (a : A)
  | Fatal (f : failure)
  | Timeout.
Arguments Done {A} a.
Arguments Fatal {A} f.
Arguments Timeout {A}.

Definition bind {A B} (m : outcome A) (k : A -> outcome B) : outcome B :=
  match m with
  | Done a => k a
  | Fatal f => Fatal f
  | Timeout => Timeout
  end.

Notation "'do' x <- m ; k" := (bind m (fun x => k))
  (at level 10, x pattern, m at level 100, k at level 200).

(** ** Regions *)

Record SourcePiece := mkPiece { start : nat; content : str }.

Definition pieceEnd (p : SourcePiece) : nat := start p + length (content p).

(** ** The region matchers *)

(** [while (start > 0 && /^[\t ]$/.test(content.charAt(start-1))) --start] *)
Fixpoint keepLeftBlank (text : str) (start : nat) : nat :=
  match start with
  | 0 => 0
  | S p => if test isBlank (text !! p) then keepLeftBlank text p else start
  end.

(** The loops that walk a cursor [e] forward carry the text from the cursor
    on: [rest] is [drop e text], so [e < content.length] is [rest <> []]
    and [content.charAt(e)] is its head.

    [while (e < content.length && cond) ++e], the condition looking at the
    text from [e] on. *)
Fixpoint advanceWhile (cond : str -> bool) (rest : str) (e : nat) : nat :=
  match rest with
  | [] => e
  | _ :: rest' => if cond rest then advanceWhile cond rest' (S e) else e
  end.

Definition charIs (p : char -> bool) (rest : str) : bool := test p (head rest).

(** The [for] loop of [matchMacro]; the result is [end] when the loop is
    left.  On a backslash the inner loop runs over the white space that
    follows, [--end] steps back and the outer [++end] forward again, so the
    outer loop goes on at the first character that is not white space. *)
Fixpoint macroEnd (rest : str) (e : nat) {struct rest} : nat :=
  match rest with
  | [] => e
  | letter :: rest' =>
      if negb (eqc letter BACKSLASH) && negb (eqc letter NL)
      then macroEnd rest' (S e)
      else if eqc letter NL then e
      else (fix absorb (r : str) (e : nat) {struct r} : nat :=
              match r with
              | [] => e
              | w :: r' => if isSpace w then absorb r' (S e) else macroEnd r e
              end) rest' (S e)
  end.

Definition matchMacro (text : str) (start : nat) : SourcePiece :=
  let start := keepLeftBlank text start in
  let e := macroEnd (drop (start + 1) text) (start + 1) in
  {| start := start; content := slice text start (e + 1) |}.

(** The [for] loop of [matchLiteral].  A backslash takes one more
    character ([++end], then the loop's own [++end]). *)
Fixpoint literalEnd (quote : option char) (rest : str) (e : nat)
  {struct rest} : nat :=
  match rest with
  | [] => e
  | letter :: rest' =>
      if negb (eqc letter BACKSLASH)
         && negb (bool_decide (Some letter = quote))
      then literalEnd quote rest' (S e)
      else if bool_decide (Some letter = quote) then e
      else match rest' with
           | [] => S (S e)
           | _ :: rest'' => literalEnd quote rest'' (S (S e))
           end
  end.

Definition matchLiteral (text : str) (start : nat) : outcome SourcePiece :=
  let quote := text !! start in
  let e := literalEnd quote (drop (start + 1) text) (start + 1) in
  if length text <=? e then Fatal UnterminatedLiteral
  else Done {| start := start; content := slice text start (e + 1) |}.

Definition matchLineComment (text : str) (start : nat) (lcSymbol : str)
  : SourcePiece :=
  let e0 := start + length lcSymbol in
  let e := advanceWhile (fun r => negb (charIs isNewline r)) (drop e0 text) e0 in
  {| start := start; content := slice text start e |}.

Definition matchBlockComment (text : str) (start : nat) (bcSymbol : str * str)
  : outcome SourcePiece :=
  let start := keepLeftBlank text start in
  let e0 := start + length (fst bcSymbol) in
  let e1 := advanceWhile (fun r => negb (startsWith (snd bcSymbol) r))
              (drop e0 text) e0 in
  if length text <=? e1 then Fatal UnterminatedBlockComment
  else
    let e2 := e1 + length (snd bcSymbol) in
    let e3 := advanceWhile (charIs isBlank) (drop e2 text) e2 in
    let e4 := advanceWhile (charIs isNewline) (drop e3 text) e3 in
    Done {| start := start; content := slice text start e4 |}.

(** ** The language descriptor *)

Record LanguageConfig := {
  macroMark : str;
  quoteMark : list str;
  inlineCommentMark : str;
  blockCommentMark : str * str
}.

(** Modelled from the spec: [languageConfig] is imported from
    [@/config/immutable], which is not among the sources.  The spec gives
    its value: macro mark [#], quote marks the double and the single quote,
    line-comment mark [//], block-comment marks [/*] and [*/]. *)
Definition languageConfig : LanguageConfig := {|
  macroMark := [HASH];
  quoteMark := [[DQUOTE]; [SQUOTE]];
  inlineCommentMark := [SLASH; SLASH];
  blockCommentMark := ([SLASH; STAR], [STAR; SLASH])
|}.

(** ** The scanner *)

(** The arrays [partition] fills while it scans, and [lastIndex]. *)
Record Scan := mkScan {
  s_macros : list SourcePiece;
  s_sources : list SourcePiece;
  s_comments : list SourcePiece;
  s_literals : list SourcePiece;
  s_lastIndex : nat
}.

Definition emptyScan : Scan := mkScan [] [] [] [] 0.

Definition pushMacro (p : SourcePiece) (st : Scan) : Scan :=
  mkScan (s_macros st ++ [p]) (s_sources st) (s_comments st) (s_literals st)
         (s_lastIndex st).

Definition pushLiteral (p : SourcePiece) (st : Scan) : Scan :=
  mkScan (s_macros st) (s_sources st) (s_comments st) (s_literals st ++ [p])
         (s_lastIndex st).

Definition pushComment (p : SourcePiece) (st : Scan) : Scan :=
  mkScan (s_macros st) (s_sources st) (s_comments st ++ [p]) (s_literals st)
         (s_lastIndex st).

(** [sources.push(...)] together with the assignment to [lastIndex]. *)
Definition pushSource (p : SourcePiece) (lastIndex : nat) (st : Scan) : Scan :=
  mkScan (s_macros st) (s_sources st ++ [p]) (s_comments st) (s_literals st)
         lastIndex.

(** [for (let quote of quoteMark)]: no [break], and no test of
    [sourcePiece] inside the loop. *)
Fixpoint tryQuotes (quotes : list str) (text : str) (i : nat)
  (sp : option SourcePiece) (st : Scan) : outcome (option SourcePiece * Scan) :=
  match quotes with
  | [] => Done (sp, st)
  | quote :: quotes' =>
      if startsWith quote (drop i text)
      then do p <- matchLiteral text i;
           tryQuotes quotes' text i (Some p) (pushLiteral p st)
      else tryQuotes quotes' text i sp st
  end.

(** The body of the scanning loop up to [if (sourcePiece == null) continue]:
    the matchers tried in turn at offset [i]. *)
Definition matchAt (cfg : LanguageConfig) (text : str) (i : nat) (st : Scan)
  : outcome (option SourcePiece * Scan) :=
  let rest := drop i text in
  let '(sp, st) :=
    if startsWith (macroMark cfg) rest
    then let p := matchMacro text i in (Some p, pushMacro p st)
    else (None, st) in
  do (sp, st) <-
    match sp with
    | None => tryQuotes (quoteMark cfg) text i None st
    | Some _ => Done (sp, st)
    end;
  let '(sp, st) :=
    match sp with
    | None =>
        if startsWith (inlineCommentMark cfg) rest
        then let p := matchLineComment text i (inlineCommentMark cfg) in
             (Some p, pushComment p st)
        else (None, st)
    | Some _ => (sp, st)
    end in
  match sp with
  | None =>
      if startsWith (fst (blockCommentMark cfg)) rest
      then do p <- matchBlockComment text i (blockCommentMark cfg);
           Done (Some p, pushComment p st)
      else Done (None, st)
  | Some _ => Done (sp, st)
  end.

(** What follows a match: the plain run before the region is pushed and
    [lastIndex] moves behind the region. *)
Definition closeRun (text : str) (p : SourcePiece) (st : Scan) : Scan :=
  pushSource (mkPiece (s_lastIndex st) (slice text (s_lastIndex st) (start p)))
             (start p + length (content p)) st.

(** [for (let i = lastIndex; i < content.length; ++i)].  After a match
    [i = lastIndex - 1] and the loop's [++i] make the next [i] the new
    [lastIndex].  Each round takes one unit of fuel. *)
Fixpoint scanFrom (cfg : LanguageConfig) (fuel : nat) (text : str) (i : nat)
  (st : Scan) : outcome Scan :=
  match fuel with
  | 0 => Timeout
  | S fuel' =>
      if length text <=? i then Done st
      else
        do (sp, st) <- matchAt cfg text i st;
        match sp with
        | None => scanFrom cfg fuel' text (S i) st
        | Some p =>
            let st := closeRun text p st in
            scanFrom cfg fuel' text (s_lastIndex st) st
        end
  end.

(** The scan with the last plain run pushed: the four arrays before any
    extraction. *)
Definition scanWith (cfg : LanguageConfig) (fuel : nat) (text : str)
  : outcome Scan :=
  do st <- scanFrom cfg fuel text 0 emptyScan;
  Done (pushSource (mkPiece (s_lastIndex st) (drop (s_lastIndex st) text))
                   (s_lastIndex st) st).

Definition scan (text : str) : outcome Scan :=
  scanWith languageConfig (S (length text)) text.

(** ** Regular expressions

    The three patterns use literal characters, character classes, the
    quantifiers [*], [+] and [*?] on a single character or class, and
    capturing groups that are not nested.  A pattern is the list of its
    items; matching backtracks in the order ECMAScript prescribes: a greedy
    quantifier tries the longest run first, a lazy one the shortest. *)

Inductive quantifier :=
  | Once     (* x   *)
  | Many0    (* x*  *)
  | Many1    (* x+  *)
  | Lazy0.   (* x*? *)

Inductive node :=
  | Atom (p : char -> bool) (q : quantifier)
  | GroupStart
  | GroupEnd.

Abbreviation regex := (list node) (only parsing).

(** The groups still open (innermost first) and the ones closed so far, as
    offsets from the start of the match. *)
Abbreviation captures := (list nat * list (nat * nat))%type (only parsing).

Abbreviation continuation :=
  (str -> nat -> captures -> option (nat * captures)) (only parsing).

Fixpoint greedy (p : char -> bool) (k : continuation) (s : str) (i : nat)
  (c : captures) {struct s} : option (nat * captures) :=
  match s with
  | x :: s' =>
      if p x
      then match greedy p k s' (S i) c with
           | Some r => Some r
           | None => k s i c
           end
      else k s i c
  | [] => k s i c
  end.

Fixpoint reluctant (p : char -> bool) (k : continuation) (s : str) (i : nat)
  (c : captures) {struct s} : option (nat * captures) :=
  match k s i c with
  | Some r => Some r
  | None =>
      match s with
      | x :: s' => if p x then reluctant p k s' (S i) c else None
      | [] => None
      end
  end.

(** [matchHere r s i c]: match [r] against a prefix of [s], which starts
    [i] characters into the attempt; the offset of the end of the match and
    the groups. *)
Fixpoint matchHere (r : regex) : continuation :=
  match r with
  | [] => fun _ i c => Some (i, c)
  | GroupStart :: r' => fun s i c => matchHere r' s i (i :: fst c, snd c)
  | GroupEnd :: r' => fun s i c =>
      match fst c with
      | b :: open => matchHere r' s i (open, snd c ++ [(b, i)])
      | [] => matchHere r' s i c
      end
  | Atom p Once :: r' => fun s i c =>
      match s with
      | x :: s' => if p x then matchHere r' s' (S i) c else None
      | [] => None
      end
  | Atom p Many0 :: r' => greedy p (matchHere r')
  | Atom p Many1 :: r' => fun s i c =>
      match s with
      | x :: s' => if p x then greedy p (matchHere r') s' (S i) c else None
      | [] => None
      end
  | Atom p Lazy0 :: r' => reluctant p (matchHere r')
  end.

(** A match attempt at the head of [s]: the length of the match and the
    text of each group. *)
Definition matchAtHead (r : regex) (s : str) : option (nat * list str) :=
  match matchHere r s 0 ([], []) with
  | Some (n, c) => Some (n, map (fun be => slice s (fst be) (snd be)) (snd c))
  | None => None
  end.

(** [s.replace(r, callback)] for a pattern with the [g] flag and a callback
    that returns the empty string: the text left over, and the groups the
    callback was given at each match, in order.  [skip] counts the
    characters of the current match that are still to be dropped.  After a
    match the search resumes behind it; after an empty match one character
    further. *)
Fixpoint replaceAll (r : regex) (s : str) (skip : nat)
  : str * list (list str) :=
  match s with
  | [] =>
      match matchAtHead r [] with
      | Some (_, g) => ([], [g])
      | None => ([], [])
      end
  | x :: s' =>
      match skip with
      | S skip' => replaceAll r s' skip'
      | 0 =>
          match matchAtHead r s with
          | Some (0, g) =>
              let '(out, gs) := replaceAll r s' 0 in (x :: out, g :: gs)
          | Some (S n, g) =>
              let '(out, gs) := replaceAll r s' n in (out, g :: gs)
          | None =>
              let '(out, gs) := replaceAll r s' 0 in (x :: out, gs)
          end
      end
  end.

Definition lit (s : string) : regex := map (fun c => Atom (eqc c) Once) (txt s).

Definition oneOf (cs : list char) (c : char) : bool :=
  bool_decide (c ∈ cs).

(** [/#include\s*[<"]([\w\-_.:\/\\]+)[>"]\s*?\n/] *)
Definition getImportRegex : regex :=
  lit "#include"
  ++ [ Atom isSpace Many0;
       Atom (oneOf [chr "<"; DQUOTE]) Once;
       GroupStart;
       Atom (fun c => isWord c
                      || oneOf [chr "-"; chr "_"; chr "."; chr ":"; SLASH;
                                BACKSLASH] c) Many1;
       GroupEnd;
       Atom (oneOf [chr ">"; DQUOTE]) Once;
       Atom isSpace Lazy0;
       Atom (eqc NL) Once ].

(** [/using\s+namespace\s+(\w+)\s*;\s*/] *)
Definition getNamespaceRegex : regex :=
  lit "using"
  ++ [ Atom isSpace Many1 ]
  ++ lit "namespace"
  ++ [ Atom isSpace Many1;
       GroupStart; Atom isWord Many1; GroupEnd;
       Atom isSpace Many0;
       Atom (eqc (chr ";")) Once;
       Atom isSpace Many0 ].

(** [/typedef\s+([\w* <>]+)\s+(\w+)\s*;\s*/] *)
Definition getTypedefRegex : regex :=
  lit "typedef"
  ++ [ Atom isSpace Many1;
       GroupStart;
       Atom (fun c => isWord c || oneOf [STAR; SPACE; chr "<"; chr ">"] c) Many1;
       GroupEnd;
       Atom isSpace Many1;
       GroupStart; Atom isWord Many1; GroupEnd;
       Atom isSpace Many0;
       Atom (eqc (chr ";")) Once;
       Atom isSpace Many0 ].

(** ** Extraction and assembly *)

Record SourceItem := {
  macros : list SourcePiece;
  sources : list SourcePiece;
  comments : list SourcePiece;
  literals : list SourcePiece;
  dependencies : list str;
  namespaces : list str;
  typedefs : gmap (list N) (list N)
}.

(** [pieces.forEach(p => { p.content = p.content.replace(r, callback) })]:
    the pieces with their new content, and the groups of every match in the
    order the callback saw them. *)
Fixpoint forEachReplace (r : regex) (pieces : list SourcePiece)
  : list SourcePiece * list (list str) :=
  match pieces with
  | [] => ([], [])
  | p :: pieces' =>
      let '(out, gs) := replaceAll r (content p) 0 in
      let '(ps, gs') := forEachReplace r pieces' in
      (mkPiece (start p) out :: ps, gs ++ gs')
  end.

(** The [n]th group handed to a callback (counted from 1). *)
Definition group (n : nat) (g : list str) : str := default [] (g !! (n - 1)).

(** [[...new Set(l)]]: a set keeps its elements in the order in which
    they were added first. *)
Definition addToSet (seen : list str) (x : str) : list str :=
  if bool_decide (x ∈ seen) then seen else seen ++ [x].

Definition setOf (l : list str) : list str := foldl addToSet [] l.

Definition filterNotEmptyPiece (p : SourcePiece) : bool :=
  0 <? length (content p).

Definition notEmpty (s : str) : bool := 0 <? length s.

Definition assemble (st : Scan) : SourceItem :=
  let '(macros, deps) := forEachReplace getImportRegex (s_macros st) in
  let dependencies := map (group 1) deps in
  let '(sources, nss) := forEachReplace getNamespaceRegex (s_sources st) in
  let namespaces := map (group 1) nss in
  let '(sources, tds) := forEachReplace getTypedefRegex sources in
  let typedefs :=
    foldl (fun (m : gmap (list N) (list N)) g => <[group 2 g := group 1 g]> m) ∅ tds in
  {| macros := macros;
     sources := filter (fun p => filterNotEmptyPiece p = true) sources;
     comments := filter (fun p => filterNotEmptyPiece p = true) (s_comments st);
     literals := filter (fun p => filterNotEmptyPiece p = true) (s_literals st);
     dependencies := filter (fun d => notEmpty d = true) (setOf dependencies);
     namespaces := filter (fun ns => notEmpty ns = true) namespaces;
     typedefs := typedefs |}.

Definition partition (text : str) : outcome SourceItem :=
  do st <- scan text;
  Done (assemble st).

(** * Notions used to state the properties *)

(** [macroEnd] on a backslash, as a function of its own: the white space
    behind the backslash is absorbed and the scan goes on behind it. *)
Fixpoint absorbThen (r : str) (e : nat) : nat :=
  match r with
  | [] => e
  | w :: r' => if isSpace w then absorbThen r' (S e) else macroEnd r e
  end.

(** The newline at offset [p] lies in a run of white space that follows a
    backslash. *)
Definition lineCrossing (rest : str) (p : nat) : Prop :=
  exists b, b < p /\ rest !! b = Some BACKSLASH /\
    forall j, b < j <= p -> test isSpace (rest !! j) = true.

(** What a pattern accepts, without the order in which the matcher tries:
    [accepts r pre] when [pre] is a text the pattern [r] can match in
    full. *)
Fixpoint accepts (r : regex) (pre : str) : Prop :=
  match r with
  | [] => pre = []
  | GroupStart :: r' | GroupEnd :: r' => accepts r' pre
  | Atom p Once :: r' =>
      exists x pre', pre = x :: pre' /\ p x = true /\ accepts r' pre'
  | Atom p Many0 :: r' | Atom p Lazy0 :: r' =>
      exists run pre', pre = run ++ pre' /\ Forall (fun x => p x = true) run
                       /\ accepts r' pre'
  | Atom p Many1 :: r' =>
      exists x run pre', pre = x :: run ++ pre' /\ p x = true
                         /\ Forall (fun x => p x = true) run /\ accepts r' pre'
  end.

(** A continuation of the matcher reports only matches that [r] accepts. *)
Definition sound (k : continuation) (r : regex) : Prop :=
  forall s i c n c', k s i c = Some (n, c') ->
    exists pre suf, s = pre ++ suf /\ n = i + length pre /\ accepts r pre.

(** The states in which the loop of [partition] tests its condition: the
    cursor [i] and the arrays filled so far. *)
Inductive loopState (text : str) : nat -> Scan -> Prop :=
  | loop_start : loopState text 0 emptyScan
  | loop_skip i st st' :
      loopState text i st -> i < length text ->
      matchAt languageConfig text i st = Done (None, st') ->
      loopState text (S i) st'
  | loop_match i st p st' :
      loopState text i st -> i < length text ->
      matchAt languageConfig text i st = Done (Some p, st') ->
      loopState text (s_lastIndex (closeRun text p st')) (closeRun text p st').

(** The region [p] goes on behind the newline at offset [n] of the text. *)
Definition crossesLine (text : str) (p : SourcePiece) (n : nat) : Prop :=
  start p <= n /\ S n < pieceEnd p /\ text !! n = Some NL.

(** The newline at offset [n] lies in a run of white space that follows a
    backslash behind offset [lo]; with [strict], the backslash is followed
    by a newline at once. *)
Definition continuedAt (strict : bool) (text : str) (lo n : nat) : Prop :=
  exists b, lo < b < n /\ text !! b = Some BACKSLASH /\
    (strict = true -> text !! (S b) = Some NL) /\
    forall j, b < j <= n -> test isSpace (text !! j) = true.

(** The content of a macro region: a newline that is not its last
    character lies in a run of white space that follows a backslash. *)
Definition macroShaped (c : str) : Prop :=
  forall p, S p < length c -> c !! p = Some NL -> lineCrossing c p.

(** Every match of [r] in [s] reaches the end of [s]. *)
Definition endsOnly (r : regex) (s : str) : Prop :=
  forall a pre suf, drop a s = pre ++ suf -> accepts r pre -> suf = [].

(** [replace] finds nothing to replace. *)
Definition stripped (r : regex) (s : str) : Prop := replaceAll r s 0 = (s, []).

(** The regions of a scan sorted by their start (regions of equal start
    stay in the order macros, literals, comments, plain runs) and laid end
    to end. *)
Definition regions (st : Scan) : list SourcePiece :=
  s_macros st ++ s_literals st ++ s_comments st ++ s_sources st.

Fixpoint insertByStart (p : SourcePiece) (l : list SourcePiece)
  : list SourcePiece :=
  match l with
  | [] => [p]
  | q :: l' => if start p <=? start q then p :: l else q :: insertByStart p l'
  end.

Definition sortByStart (l : list SourcePiece) : list SourcePiece :=
  foldr insertByStart [] l.

Definition laidOut (st : Scan) : str :=
  concat (map content (sortByStart (regions st))).

(** Two regions share an offset of the text. *)
Definition overlap (p q : SourcePiece) : Prop :=
  start p < pieceEnd q /\ start q < pieceEnd p.

(** The closing token of a block comment stands at offset [c], behind the
    opening token at offset [i]. *)
Definition closedAt (bc : str * str) (text : str) (i c : nat) : Prop :=
  i + length (fst bc) <= c /\ startsWith (snd bc) (drop c text) = true.

(** The number of backslashes that stand directly before offset [k], and
    whether the character at [k] is escaped: a backslash escapes the
    character behind it unless it is escaped itself, so a character is
    escaped when an odd number of backslashes stand before it. *)
Fixpoint backslashesBefore (body : str) (k : nat) : nat :=
  match k with
  | 0 => 0
  | S j =>
      if test (eqc BACKSLASH) (body !! j) then S (backslashesBefore body j)
      else 0
  end.

Definition escaped (body : str) (k : nat) : bool :=
  Nat.odd (backslashesBefore body k).

(** ** Notions for the regions as a whole *)

(** The region is the part of the text that starts at its [start]. *)
Definition inPlace (text : str) (p : SourcePiece) : Prop :=
  pieceEnd p <= length text /\ content p = slice text (start p) (pieceEnd p).

(** The content of the region is what is left of a part of the text that
    starts at its [start], after characters were taken out of it. *)
Definition drawnFrom (text : str) (p : SourcePiece) : Prop :=
  exists e, e <= length text /\ content p `sublist_of` slice text (start p) e.

(** Offset [x] of the text lies in the region. *)
Definition covers (p : SourcePiece) (x : nat) : Prop := start p <= x < pieceEnd p.

(** The order of the regions in the text. *)
Definition before (p q : SourcePiece) : Prop := start p < start q.

(** Region [q] reaches a character before the cursor [i] that is not a
    blank: no later region can move its start back to the start of [q]. *)
Definition anchored (text : str) (i : nat) (q : SourcePiece) : Prop :=
  exists j, start q <= j < i /\ test isBlank (text !! j) = false.

(** A list of regions in the order of their starts, each found before the
    cursor [i]. *)
Definition ascending (text : str) (i : nat) (l : list SourcePiece) : Prop :=
  StronglySorted before l /\ forall q, q ∈ l -> anchored text i q.

(** The plain runs in the order of their starts, all before [lastIndex]. *)
Definition runsAscending (lastIndex : nat) (l : list SourcePiece) : Prop :=
  StronglySorted before l /\ forall q, q ∈ l -> start q < lastIndex.

Definition atLeast (n : nat) (p : SourcePiece) : Prop := n <= length (content p).

(** No offset of the text starts a macro, a literal or a comment. *)
Definition noIntroducer (text : str) : Prop :=
  forall i, text !! i <> Some HASH /\ text !! i <> Some DQUOTE
            /\ text !! i <> Some SQUOTE
            /\ startsWith [SLASH; SLASH] (drop i text) = false
            /\ startsWith [SLASH; STAR] (drop i text) = false.

(** ** Notions for the groups of a match *)

(** What a pattern accepts together with the groups it leaves: [pre] is
    matched in full from offset [i] on, and the groups go from [c] (the
    starts of the open groups, and the closed groups by their offsets) to
    [c']. *)
Fixpoint captures_of (r : regex) (pre : str) (i : nat)
  (c c' : list nat * list (nat * nat)) : Prop :=
  match r with
  | [] => pre = [] /\ c' = c
  | GroupStart :: r' => captures_of r' pre i (i :: fst c, snd c) c'
  | GroupEnd :: r' =>
      match fst c with
      | b :: open => captures_of r' pre i (open, snd c ++ [(b, i)]) c'
      | [] => captures_of r' pre i c c'
      end
  | Atom p Once :: r' =>
      exists x pre', pre = x :: pre' /\ p x = true
                     /\ captures_of r' pre' (S i) c c'
  | Atom p Many0 :: r' | Atom p Lazy0 :: r' =>
      exists run pre', pre = run ++ pre' /\ Forall (fun x => p x = true) run
                       /\ captures_of r' pre' (i + length run) c c'
  | Atom p Many1 :: r' =>
      exists x run pre', pre = x :: run ++ pre' /\ p x = true
                         /\ Forall (fun x => p x = true) run
                         /\ captures_of r' pre' (S i + length run) c c'
  end.

(** A matcher is faithful to a pattern when each of its results is a
    prefix the pattern accepts, with the groups the pattern leaves. *)
Definition faithful
  (k : str -> nat -> list nat * list (nat * nat) ->
       option (nat * (list nat * list (nat * nat)))) (r : regex) : Prop :=
  forall s i c n c', k s i c = Some (n, c') ->
    exists pre suf, s = pre ++ suf /\ n = i + length pre /\ captures_of r pre i c c'.

(** The class [[\w\-_.:\/\\]] of the include pattern and the class
    [[\w* <>]] of the typedef pattern. *)
Definition isPathChar (c : char) : bool :=
  isWord c || oneOf [chr "-"; chr "_"; chr "."; chr ":"; SLASH; BACKSLASH] c.

Definition isTypeChar (c : char) : bool :=
  isWord c || oneOf [STAR; SPACE; chr "<"; chr ">"] c.

(** An include directive as the pattern takes it: [#include], white
    space, an opening mark, the path, a closing mark, white space and the
    newline that ends it. *)
Definition directive (sp : str) (o : char) (path : str) (c : char) (sp' : str)
  : str :=
  txt "#include" ++ sp ++ o :: path ++ c :: sp' ++ [NL].

(** The parts of a directive are of the classes of the pattern, and no
    newline stands before the one that ends it. *)
Definition wellFormed (sp : str) (o : char) (path : str) (c : char) (sp' : str)
  : Prop :=
  Forall (fun x => isSpace x = true) sp
  /\ oneOf [chr "<"; DQUOTE] o = true
  /\ path <> [] /\ Forall (fun x => isPathChar x = true) path
  /\ oneOf [chr ">"; DQUOTE] c = true
  /\ Forall (fun x => isSpace x = true /\ x <> NL) sp'.

(** The matches of the typedef pattern in the plain runs of a scan, in the
    order [typedefs.set] sees them, and those among a list of matches that
    declare [alias]. *)
Definition typedefMatches (st : Scan) : list (list str) :=
  snd (forEachReplace getTypedefRegex
         (fst (forEachReplace getNamespaceRegex (s_sources st)))).

Definition declared (alias : str) (tds : list (list str)) : list (list str) :=
  filter (fun g => group 2 g = alias) tds.

(** * Properties *)

(** ** Slices, and the loops of the matchers *)

Lemma length_slice (text : str) a b :
  length (slice text a b) = min b (length text) - a.
Proof. unfold slice. rewrite length_take, length_drop. lia. Qed.

Lemma lookup_slice (text : str) a b j :
  j < b - a -> slice text a b !! j = text !! (a + j).
Proof.
  intros H. unfold slice. rewrite lookup_take_lt by done. by rewrite lookup_drop.
Qed.

Lemma slice_middle (front mid back : str) :
  slice (front ++ mid ++ back) (length front) (length front + length mid) = mid.
Proof.
  unfold slice. rewrite drop_app_length.
  replace (length front + length mid - length front) with (length mid) by lia.
  by rewrite take_app_length.
Qed.

Lemma slice_at (s front mid back : str) b e :
  s = front ++ mid ++ back -> b = length front -> e = b + length mid ->
  slice s b e = mid.
Proof. intros -> -> ->. apply slice_middle. Qed.

Ltac flatten :=
  repeat first [rewrite <- app_assoc | rewrite app_nil_r | progress cbn [app]].

Ltac measure :=
  repeat first [rewrite length_app | progress cbn [length]]; lia.

Lemma head_drop (text : str) i : head (drop i text) = text !! i.
Proof.
  rewrite <- (Nat.add_0_r i) at 2. rewrite <- lookup_drop.
  by destruct (drop i text).
Qed.

Lemma keepLeftBlank_le text s : keepLeftBlank text s <= s.
Proof. induction s as [|p IH]; simpl; [lia|]. destruct (test _ _); lia. Qed.

Lemma keepLeftBlank_blank text s j :
  keepLeftBlank text s <= j < s -> test isBlank (text !! j) = true.
Proof.
  induction s as [|p IH]; simpl; [lia|].
  destruct (test isBlank (text !! p)) eqn:E; [|lia].
  intros H. destruct (decide (j = p)) as [->|]; [done|]. apply IH. lia.
Qed.

Lemma keepLeftBlank_stop text s :
  keepLeftBlank text s = 0 \/
  exists p, keepLeftBlank text s = S p /\ test isBlank (text !! p) = false.
Proof.
  induction s as [|p IH]; simpl; [by left|].
  destruct (test isBlank (text !! p)) eqn:E; [done|]. right. eauto.
Qed.

Lemma advanceWhile_spec cond rest e :
  exists k, advanceWhile cond rest e = e + k /\ k <= length rest /\
    (forall j, j < k -> cond (drop j rest) = true) /\
    (k < length rest -> cond (drop k rest) = false).
Proof.
  revert e. induction rest as [|x rest IH]; intros e; simpl.
  - exists 0. repeat split; simpl; intros; lia.
  - destruct (cond (x :: rest)) eqn:E.
    + destruct (IH (S e)) as (k & -> & Hk & Ht & Hf).
      exists (S k). repeat split; simpl; try lia.
      * intros [|j] Hj; simpl; [done|]. apply Ht. lia.
      * intros. apply Hf. lia.
    + exists 0. repeat split; simpl; intros; try lia; done.
Qed.

(** ** The macro matcher *)

Lemma macroEnd_backslash r e :
  macroEnd (BACKSLASH :: r) e = absorbThen r (S e).
Proof.
  simpl. revert e. induction r as [|w r IH]; intros e; [done|].
  simpl. destruct (isSpace w); [apply IH|done].
Qed.

Lemma absorbThen_spec r e :
  exists n, n <= length r /\ (forall m, m < n -> test isSpace (r !! m) = true) /\
    ((n = length r /\ absorbThen r e = e + n) \/
     (exists w, r !! n = Some w /\ isSpace w = false /\
        absorbThen r e = macroEnd (drop n r) (e + n))).
Proof.
  revert e. induction r as [|w r IH]; intros e.
  - exists 0. split; [done|]. split; [intros; lia|]. left. simpl. split; [done|lia].
  - simpl absorbThen. destruct (isSpace w) eqn:E.
    + destruct (IH (S e)) as (n & Hn & Hs & Hr).
      exists (S n). split; [simpl; lia|]. split.
      { intros [|m] Hm; simpl; [done|]. apply Hs. lia. }
      destruct Hr as [[-> ->]|(w' & Hw & Hns & ->)].
      * left. simpl. split; [done|lia].
      * right. exists w'. simpl. repeat split; try done. f_equal. lia.
    + exists 0. split; [simpl; lia|]. split; [intros; lia|].
      right. exists w. simpl drop. rewrite Nat.add_0_r. done.
Qed.

Lemma macroEnd_spec n : forall rest e, length rest <= n ->
  exists k, macroEnd rest e = e + k /\ k <= length rest /\
    (k < length rest -> rest !! k = Some NL) /\
    (forall p, p < k -> rest !! p = Some NL -> lineCrossing rest p) /\
    (forall b j, b < k -> rest !! b = Some BACKSLASH -> b < j < length rest ->
       (forall m, b < m < j -> test isSpace (rest !! m) = true) -> j < k).
Proof.
  induction n as [|n IH]; intros rest e Hlen.
  { destruct rest; [|simpl in Hlen; lia]. exists 0. simpl. repeat split; intros; try lia. }
  destruct rest as [|letter rest].
  { exists 0. simpl. repeat split; intros; try lia. }
  simpl in Hlen.
  destruct (decide (letter = NL)) as [->|HNL].
  { exists 0. simpl. repeat split; intros; try lia. }
  destruct (decide (letter = BACKSLASH)) as [->|HB].
  - rewrite macroEnd_backslash.
    destruct (absorbThen_spec rest (S e)) as (m & Hm & Hs & Hr).
    destruct Hr as [[-> ->]|(w & Hw & Hns & ->)].
    + exists (S (length rest)). split; [lia|]. split; [simpl; lia|].
      split; [simpl; lia|]. split.
      * intros [|p] Hp Hnl; [simpl in Hnl; congruence|].
        exists 0. split; [lia|]. split; [done|].
        intros [|j] Hj; [lia|]. simpl. apply Hs. lia.
      * intros b j Hb Hbs Hj Hrun. simpl in Hj. lia.
    + destruct (IH (drop m rest) (S e + m)) as (k & -> & Hk & Hend & Hcross & Hcont).
      { rewrite length_drop. lia. }
      rewrite length_drop in Hk, Hend, Hcont.
      assert (HwNL : w <> NL) by (intros ->; done).
      assert (Hk0 : 0 < k).
      { destruct k; [|lia]. exfalso. 
        assert (drop m rest !! 0 = Some NL) as H0 by (apply Hend; apply lookup_lt_Some in Hw; lia).
        rewrite lookup_drop, Nat.add_0_r, Hw in H0. congruence. }
      exists (S (m + k)). split; [lia|]. split; [simpl; lia|]. split; [|split].
      * intros H. simpl. rewrite <- lookup_drop. apply Hend. simpl in H. lia.
      * intros [|p] Hp Hnl; [simpl in Hnl; congruence|]. simpl in Hnl.
        destruct (decide (p < m)) as [Hlt|Hge].
        -- exists 0. split; [lia|]. split; [done|].
           intros [|j] Hj; [lia|]. simpl. apply Hs. lia.
        -- destruct (Hcross (p - m)) as (b & Hb & Hbs & Hsp); [lia| |].
           { rewrite lookup_drop. replace (m + (p - m)) with p by lia. done. }
           exists (S (m + b)). split; [lia|].
           split; [simpl; by rewrite <- lookup_drop|].
           intros [|j] Hj; [lia|]. simpl.
           specialize (Hsp (j - m)). rewrite lookup_drop in Hsp.
           replace (m + (j - m)) with j in Hsp by lia. apply Hsp. lia.
      * intros [|b] [|j] Hb Hbs Hj Hrun; try lia.
        -- (* the first backslash *)
           destruct (decide (j < m)); [lia|]. 
           destruct (decide (j = m)); [lia|]. exfalso.
           specialize (Hrun (S m)). simpl in Hrun. rewrite Hw in Hrun. simpl in Hrun.
           rewrite Hns in Hrun. discriminate Hrun. lia.
        -- simpl in Hbs. simpl in Hj.
           destruct (decide (b < m)) as [Hlt|Hge].
           { specialize (Hs b Hlt). rewrite Hbs in Hs. simpl in Hs. done. }
           cut (j - m < k); [lia|].
           apply (Hcont (b - m)); [lia| | lia|].
           { rewrite lookup_drop. replace (m + (b - m)) with b by lia. done. }
           intros q Hq. rewrite lookup_drop. specialize (Hrun (S (m + q))). simpl in Hrun.
           apply Hrun. lia.
  - assert (Hpl : negb (eqc letter BACKSLASH) && negb (eqc letter NL) = true).
    { unfold eqc. apply andb_true_iff; split; apply negb_true_iff, N.eqb_neq; done. }
    simpl. rewrite Hpl.
    destruct (IH rest (S e)) as (k & -> & Hk & Hend & Hcross & Hcont); [lia|].
    exists (S k). split; [lia|]. split; [simpl; lia|]. split; [|split].
    + intros H. simpl. apply Hend. simpl in H. lia.
    + intros [|p] Hp Hnl; [simpl in Hnl; congruence|]. simpl in Hnl.
      destruct (Hcross p) as (b & Hb & Hbs & Hsp); [lia|done|].
      exists (S b). split; [lia|]. split; [done|].
      intros [|j] Hj; [lia|]. simpl. apply Hsp. lia.
    + intros [|b] [|j] Hb Hbs Hj Hrun; try lia.
      * simpl in Hbs. congruence.
      * simpl in Hbs, Hj. cut (j < k); [lia|]. apply (Hcont b); [lia|done|lia|].
        intros q Hq. specialize (Hrun (S q)). simpl in Hrun. apply Hrun. lia.
Qed.

(** ** The pattern matcher reports only what the pattern accepts *)

Section Soundness.
Variable p : char -> bool.
Variable k : continuation.
Variable r : regex.
Hypothesis k_sound : sound k r.

(** The continuation taken at once: the run of the quantifier is empty. *)
Lemma sound_empty_run q s i c n c' :
  q = Many0 \/ q = Lazy0 ->
  k s i c = Some (n, c') ->
  exists pre suf, s = pre ++ suf /\ n = i + length pre
                  /\ accepts (Atom p q :: r) pre.
Proof.
  intros Hq H. apply k_sound in H as (pre & suf & -> & -> & Hacc).
  exists pre, suf. split; [done|]. split; [done|].
  destruct Hq as [-> | ->]; exists [], pre; by repeat split.
Qed.

(** One more character in the run. *)
Lemma sound_longer_run q x s i n :
  q = Many0 \/ q = Lazy0 -> p x = true ->
  (exists pre suf, s = pre ++ suf /\ n = S i + length pre
                   /\ accepts (Atom p q :: r) pre) ->
  exists pre suf, x :: s = pre ++ suf /\ n = i + length pre
                  /\ accepts (Atom p q :: r) pre.
Proof.
  intros Hq Hx (pre & suf & -> & -> & Hacc).
  exists (x :: pre), suf. split; [done|]. split; [simpl; lia|].
  destruct Hq as [-> | ->]; destruct Hacc as (run & pre' & -> & Hrun & Hacc);
    exists (x :: run), pre'; (split; [done|]); (split; [by constructor|done]).
Qed.

Lemma greedy_sound : sound (greedy p k) (Atom p Many0 :: r).
Proof.
  intros s. induction s as [|x s IH]; intros i c n c' H; simpl in H.
  - eapply sound_empty_run; eauto.
  - destruct (p x) eqn:E; [|eapply sound_empty_run; eauto].
    destruct (greedy p k s (S i) c) as [[n0 c0]|] eqn:G;
      [|eapply sound_empty_run; eauto].
    injection H as -> ->. apply sound_longer_run; eauto.
Qed.

Lemma reluctant_sound : sound (reluctant p k) (Atom p Lazy0 :: r).
Proof.
  intros s. induction s as [|x s IH]; intros i c n c' H; simpl in H.
  - destruct (k [] i c) as [[n0 c0]|] eqn:K; [|done]. injection H as -> ->.
    eapply sound_empty_run; eauto.
  - destruct (k (x :: s) i c) as [[n0 c0]|] eqn:K.
    + injection H as -> ->. eapply sound_empty_run; eauto.
    + destruct (p x) eqn:E; [|done]. apply sound_longer_run; eauto.
Qed.
End Soundness.

Lemma matchHere_sound r : sound (matchHere r) r.
Proof.
  induction r as [|nd r IH]; intros s i c n c' H.
  - simpl in H. injection H as <- <-. exists [], s. simpl.
    split; [done|]. split; [lia|done].
  - destruct nd as [p q| |].
    + destruct q; simpl in H.
      * destruct s as [|x s]; [done|]. destruct (p x) eqn:E; [|done].
        apply IH in H as (pre & suf & -> & -> & Hacc).
        exists (x :: pre), suf. split; [done|]. split; [simpl; lia|].
        exists x, pre. done.
      * by apply (greedy_sound p _ r IH) in H.
      * destruct s as [|x s]; [done|]. destruct (p x) eqn:E; [|done].
        apply (greedy_sound p _ r IH) in H
          as (pre & suf & -> & -> & (run & pre' & -> & Hrun & Hacc)).
        exists (x :: run ++ pre'), suf. split; [done|]. split; [simpl; lia|].
        exists x, run, pre'. done.
      * by apply (reluctant_sound p _ r IH) in H.
    + simpl in H. by apply IH in H.
    + simpl in H. destruct (fst c); by apply IH in H.
Qed.

Lemma matchAtHead_sound r s n g :
  matchAtHead r s = Some (n, g) ->
  exists pre suf, s = pre ++ suf /\ n = length pre /\ accepts r pre.
Proof.
  unfold matchAtHead.
  destruct (matchHere r s 0 ([], [])) as [[n0 c0]|] eqn:E; [|done].
  intros [= <- <-]. apply matchHere_sound in E as (pre & suf & -> & -> & H).
  eauto.
Qed.

Lemma accepts_app r1 r2 pre : accepts (r1 ++ r2) pre ->
  exists p1 p2, pre = p1 ++ p2 /\ accepts r1 p1 /\ accepts r2 p2.
Proof.
  revert pre. induction r1 as [|nd r1 IH]; intros pre H.
  - exists [], pre. done.
  - destruct nd as [p q| |]; [destruct q|..]; simpl in H.
    + destruct H as (x & pre' & -> & Hx & H).
      apply IH in H as (p1 & p2 & -> & H1 & H2).
      exists (x :: p1), p2. split; [done|]. split; [|done]. exists x, p1. done.
    + destruct H as (run & pre' & -> & Hrun & H).
      apply IH in H as (p1 & p2 & -> & H1 & H2).
      exists (run ++ p1), p2. split; [by rewrite (assoc_L (++))|].
      split; [|done]. exists run, p1. done.
    + destruct H as (x & run & pre' & -> & Hx & Hrun & H).
      apply IH in H as (p1 & p2 & -> & H1 & H2).
      exists (x :: run ++ p1), p2. split; [by rewrite (assoc_L (++))|].
      split; [|done]. exists x, run, p1. done.
    + destruct H as (run & pre' & -> & Hrun & H).
      apply IH in H as (p1 & p2 & -> & H1 & H2).
      exists (run ++ p1), p2. split; [by rewrite (assoc_L (++))|].
      split; [|done]. exists run, p1. done.
    + apply IH in H as (p1 & p2 & -> & H1 & H2). exists p1, p2. done.
    + apply IH in H as (p1 & p2 & -> & H1 & H2). exists p1, p2. done.
Qed.

(** A match of the include pattern ends in a closing bracket or quote, white
    space and a newline. *)
Lemma import_shape pre : accepts getImportRegex pre ->
  exists front cl run, pre = front ++ cl :: run ++ [NL]
    /\ isSpace cl = false /\ cl <> BACKSLASH
    /\ Forall (fun x => isSpace x = true) run.
Proof.
  intros H. unfold getImportRegex in H.
  apply accepts_app in H as (p1 & p2 & -> & _ & H).
  cbn [accepts] in H.
  destruct H as (r1 & ? & -> & _ & op & ? & -> & _ & x & path & ? & -> & _ & _ &
                 cl & ? & -> & Hcl & run & ? & -> & Hrun & nl & ? & -> & Hnl & ->).
  apply N.eqb_eq in Hnl as <-.
  exists (p1 ++ r1 ++ op :: x :: path), cl, run.
  split; [by rewrite <- ?app_assoc; simpl; rewrite <- ?app_assoc|].
  apply bool_decide_eq_true in Hcl.
  apply elem_of_cons in Hcl as [->|Hcl];
    [|apply list_elem_of_singleton in Hcl as ->]; done.
Qed.

(** ** The macro region in the text *)

Lemma blank_not_newline o : test isBlank o = true -> o <> Some NL.
Proof. intros H ->. done. Qed.

Lemma matchMacro_spec text i :
  text !! i = Some HASH ->
  exists k,
    let s := keepLeftBlank text i in
    let rest := drop (S s) text in
    s <= i /\ start (matchMacro text i) = s /\
    content (matchMacro text i) = take (S (S k)) (drop s text) /\
    k <= length rest /\ i - s <= k /\
    (k < length rest -> rest !! k = Some NL) /\
    (forall p, p < k -> rest !! p = Some NL -> lineCrossing rest p) /\
    (forall b j, b < k -> rest !! b = Some BACKSLASH -> b < j < length rest ->
       (forall m, b < m < j -> test isSpace (rest !! m) = true) -> j < k).
Proof.
  intros Hi. pose proof (keepLeftBlank_le text i) as Hle.
  pose proof (lookup_lt_Some _ _ _ Hi) as Hlt.
  destruct (macroEnd_spec (length text) (drop (S (keepLeftBlank text i)) text)
              (keepLeftBlank text i + 1)) as (k & He & Hk & Hend & Hcross & Hcont).
  { rewrite length_drop. lia. }
  exists k. cbn zeta. split; [done|]. split; [done|]. split.
  { cbv beta iota zeta delta [matchMacro slice content].
    rewrite !Nat.add_1_r in *. rewrite He. f_equal. lia. }
  split; [done|]. split; [|done].
  destruct (decide (k < length (drop (S (keepLeftBlank text i)) text))) as [Hk'|Hk'].
  - destruct (decide (i - keepLeftBlank text i <= k)) as [|Hn]; [done|]. exfalso.
    specialize (Hend Hk'). rewrite lookup_drop in Hend.
    destruct (decide (S (keepLeftBlank text i) + k = i)) as [Heq|Hne].
    + rewrite Heq, Hi in Hend. done.
    + eapply blank_not_newline; [|exact Hend].
      apply (keepLeftBlank_blank text i). lia.
  - rewrite length_drop in Hk', Hk. lia.
Qed.

Lemma matchMacro_end text i :
  text !! i = Some HASH ->
  start (matchMacro text i) <= i /\
  i < pieceEnd (matchMacro text i) <= length text /\
  content (matchMacro text i)
  = slice text (start (matchMacro text i)) (pieceEnd (matchMacro text i)).
Proof.
  intros Hi. pose proof (lookup_lt_Some _ _ _ Hi) as Hlt.
  destruct (matchMacro_spec text i Hi) as (k & Hle & Hs & Hc & Hk & Hik & _).
  cbn zeta in *. unfold pieceEnd. rewrite Hs, Hc.
  rewrite length_take, length_drop. rewrite length_drop in Hk.
  split; [done|]. split; [lia|].
  unfold slice.
  destruct (decide (S (S k) <= length text - keepLeftBlank text i)).
  - f_equal. lia.
  - rewrite !take_ge; [done|rewrite length_drop; lia..].
Qed.

(** ** The literal matcher *)

Lemma literalEnd_backslash quote x rest e :
  quote <> Some BACKSLASH ->
  literalEnd quote (BACKSLASH :: x :: rest) e = literalEnd quote rest (S (S e)).
Proof.
  intros Hq. cbn [literalEnd].
  replace (eqc BACKSLASH BACKSLASH) with true by done.
  rewrite bool_decide_eq_false_2 by congruence. done.
Qed.

Lemma literalEnd_spec quote n : forall rest e, length rest <= n ->
  e <= literalEnd quote rest e /\
  (literalEnd quote rest e < e + length rest ->
   rest !! (literalEnd quote rest e - e) = quote).
Proof.
  induction n as [|n IH]; intros rest e Hlen.
  { destruct rest; [|simpl in Hlen; lia]. simpl. lia. }
  destruct rest as [|letter rest]; [simpl; lia|].
  simpl in Hlen. cbn [literalEnd].
  destruct (bool_decide (Some letter = quote)) eqn:Hq.
  - rewrite andb_false_r. apply bool_decide_eq_true in Hq.
    split; [lia|]. intros _. by rewrite Nat.sub_diag.
  - rewrite andb_true_r. destruct (eqc letter BACKSLASH) eqn:Hb; cbn [negb].
    + destruct rest as [|x rest]; [simpl; lia|].
      destruct (IH rest (S (S e))) as [H1 H2]; [simpl in Hlen; lia|].
      split; [lia|]. intros H. simpl in H.
      replace (literalEnd quote rest (S (S e)) - e)
        with (S (S (literalEnd quote rest (S (S e)) - S (S e)))) by lia.
      simpl. apply H2. lia.
    + destruct (IH rest (S e)) as [H1 H2]; [lia|].
      split; [lia|]. intros H. simpl in H.
      replace (literalEnd quote rest (S e) - e)
        with (S (literalEnd quote rest (S e) - S e)) by lia.
      simpl. apply H2. lia.
Qed.

Lemma matchLiteral_spec text i p :
  matchLiteral text i = Done p ->
  exists e, i < e < length text /\ text !! e = text !! i /\
    p = mkPiece i (slice text i (S e)) /\ pieceEnd p = S e.
Proof.
  unfold matchLiteral. rewrite Nat.add_1_r.
  destruct (literalEnd_spec (text !! i) (length text) (drop (S i) text) (S i))
    as [H1 H2]; [rewrite length_drop; lia|].
  set (e := literalEnd (text !! i) (drop (S i) text) (S i)) in *.
  destruct (length text <=? e) eqn:E; [done|]. apply Nat.leb_gt in E.
  intros [= <-]. exists e. rewrite length_drop in H2.
  split; [lia|]. split.
  - rewrite <- H2 by lia. rewrite lookup_drop. f_equal. lia.
  - rewrite Nat.add_1_r. split; [done|]. unfold pieceEnd. cbn [start content].
    rewrite length_slice. lia.
Qed.

Lemma escaped_after_backslash body m :
  body !! m = Some BACKSLASH -> escaped body (S m) = negb (escaped body m).
Proof.
  intros H. unfold escaped. cbn [backslashesBefore]. rewrite H. cbn [test].
  replace (eqc BACKSLASH BACKSLASH) with true by done.
  by rewrite Nat.odd_succ, <- Nat.negb_odd.
Qed.

Lemma escaped_after_other body m x :
  body !! m = Some x -> x <> BACKSLASH -> escaped body (S m) = false.
Proof.
  intros H Hx. unfold escaped. cbn [backslashesBefore]. rewrite H. cbn [test].
  replace (eqc BACKSLASH x) with false; [done|].
  symmetry. apply N.eqb_neq. congruence.
Qed.

Lemma literalEnd_unescaped q body e0 :
  q <> BACKSLASH ->
  forall n m, length body - m <= n -> escaped body m = false ->
    (exists k, literalEnd (Some q) (drop m body) (e0 + m) = e0 + k
        /\ m <= k < length body /\ body !! k = Some q /\ escaped body k = false
        /\ forall j, m <= j < k -> body !! j = Some q -> escaped body j = true)
    \/ (e0 + length body <= literalEnd (Some q) (drop m body) (e0 + m)
        /\ forall j, m <= j -> body !! j = Some q -> escaped body j = true).
Proof.
  intros Hq. induction n as [|n IH]; intros m Hn Hm.
  { right. rewrite drop_ge by lia. cbn [literalEnd]. split; [lia|].
    intros j Hj Hj'. apply lookup_lt_Some in Hj'. lia. }
  destruct (body !! m) as [x|] eqn:Hx.
  2:{ apply lookup_ge_None in Hx. right. rewrite drop_ge by lia. cbn [literalEnd].
      split; [lia|]. intros j Hj Hj'. apply lookup_lt_Some in Hj'. lia. }
  pose proof (lookup_lt_Some _ _ _ Hx) as Hlt.
  rewrite (drop_S _ _ _ Hx). cbn [literalEnd].
  destruct (decide (x = q)) as [->|Hxq].
  - left. exists m. rewrite bool_decide_eq_true_2 by done. rewrite andb_false_r.
    split; [done|]. split; [lia|]. split; [done|]. split; [done|]. intros; lia.
  - rewrite bool_decide_eq_false_2 by congruence. rewrite andb_true_r.
    destruct (decide (x = BACKSLASH)) as [->|Hxb].
    + replace (eqc BACKSLASH BACKSLASH) with true by done. cbn [negb].
      pose proof (escaped_after_backslash body m Hx) as He1. rewrite Hm in He1.
      destruct (body !! S m) as [y|] eqn:Hy.
      * rewrite (drop_S _ _ _ Hy).
        assert (He2 : escaped body (S (S m)) = false).
        { destruct (decide (y = BACKSLASH)) as [->|Hyb].
          - rewrite (escaped_after_backslash body (S m) Hy), He1. done.
          - by apply (escaped_after_other body (S m) y). }
        replace (S (S (e0 + m))) with (e0 + S (S m)) by lia.
        destruct (IH (S (S m))) as [(k & -> & Hk & Hkq & Hke & Hbefore)|[Hr Hall]];
          [lia|done| |].
        -- left. exists k. split; [done|]. split; [lia|]. split; [done|].
           split; [done|]. intros j Hj Hjq.
           destruct (decide (j = m)) as [->|]; [congruence|].
           destruct (decide (j = S m)) as [->|]; [done|]. apply Hbefore; [lia|done].
        -- right. split; [done|]. intros j Hj Hjq.
           destruct (decide (j = m)) as [->|]; [congruence|].
           destruct (decide (j = S m)) as [->|]; [done|]. apply Hall; [lia|done].
      * apply lookup_ge_None in Hy. rewrite drop_ge by lia. right. split; [lia|].
        intros j Hj Hjq. apply lookup_lt_Some in Hjq as Hjl.
        assert (j = m) as -> by lia. congruence.
    + replace (eqc x BACKSLASH) with false
        by (symmetry; apply N.eqb_neq; congruence). cbn [negb].
      replace (S (e0 + m)) with (e0 + S m) by lia.
      destruct (IH (S m)) as [(k & -> & Hk & Hkq & Hke & Hbefore)|[Hr Hall]];
        [lia|by apply (escaped_after_other body m x)| |].
      * left. exists k. split; [done|]. split; [lia|]. split; [done|].
        split; [done|]. intros j Hj Hjq.
        destruct (decide (j = m)) as [->|]; [congruence|]. apply Hbefore; [lia|done].
      * right. split; [done|]. intros j Hj Hjq.
        destruct (decide (j = m)) as [->|]; [congruence|]. apply Hall; [lia|done].
Qed.

(** The literal opened at [i] is closed at the first quote of its kind
    that is not escaped; it is fatal when there is none. *)
Lemma matchLiteral_unescaped text i q :
  text !! i = Some q -> q <> BACKSLASH ->
  let body := drop (S i) text in
  (exists k, matchLiteral text i = Done (mkPiece i (slice text i (i + k + 2)))
      /\ body !! k = Some q /\ escaped body k = false
      /\ forall j, j < k -> body !! j = Some q -> escaped body j = true)
  \/ (matchLiteral text i = Fatal UnterminatedLiteral
      /\ forall j, body !! j = Some q -> escaped body j = true).
Proof.
  intros Hi Hq body. pose proof (lookup_lt_Some _ _ _ Hi) as Hlt.
  unfold matchLiteral. rewrite Hi, Nat.add_1_r. fold body.
  assert (Hlen : length body = length text - S i) by apply length_drop.
  destruct (literalEnd_unescaped q body (S i) Hq (length body) 0)
    as [(k & He & Hk & Hkq & Hke & Hbefore)|[Hr Hall]]; [lia|done|..];
    rewrite Nat.add_0_r in *; change (drop 0 body) with body in *.
  - left. exists k. rewrite He.
    replace (length text <=? S i + k) with false by (symmetry; apply Nat.leb_gt; lia).
    replace (S i + k + 1) with (i + k + 2) by lia.
    split; [done|]. split; [done|]. split; [done|].
    intros j Hj. apply Hbefore. lia.
  - right.
    replace (length text <=? _) with true by (symmetry; apply Nat.leb_le; lia).
    split; [done|]. intros j. apply Hall. lia.
Qed.

(** ** The comment matchers *)

Lemma startsWith_length tok rest : startsWith tok rest = true -> length tok <= length rest.
Proof.
  revert rest. induction tok as [|t tok IH]; intros [|c rest] H; simpl in *; try lia; try done.
  apply andb_true_iff in H as [_ H]. apply IH in H. lia.
Qed.

Lemma startsWith_lookup tok rest j t :
  startsWith tok rest = true -> tok !! j = Some t -> rest !! j = Some t.
Proof.
  revert rest j. induction tok as [|t' tok IH]; intros [|c rest] [|j] H Hj; simpl in *; try done.
  - apply andb_true_iff in H as [H _]. apply N.eqb_eq in H. congruence.
  - apply andb_true_iff in H as [_ H]. eauto.
Qed.

Lemma matchLineComment_spec text i lc :
  i < length text ->
  startsWith lc (drop i text) = true ->
  let p := matchLineComment text i lc in
  start p = i /\ i + length lc <= pieceEnd p <= length text /\
  content p = slice text i (pieceEnd p) /\
  test isNewline (text !! pieceEnd p) = test (fun _ => true) (text !! pieceEnd p).
Proof.
  intros Hi Hs. apply startsWith_length in Hs. rewrite length_drop in Hs.
  unfold matchLineComment.
  destruct (advanceWhile_spec (fun r => negb (charIs isNewline r))
              (drop (i + length lc) text) (i + length lc)) as (k & -> & Hk & _ & Hstop).
  rewrite length_drop in Hk, Hstop. cbn zeta.
  assert (He : pieceEnd (mkPiece i (slice text i (i + length lc + k))) = i + length lc + k).
  { unfold pieceEnd. cbn [start content]. rewrite length_slice.
    lia. }
  rewrite He. split; [done|]. split; [lia|]. split; [done|].
  destruct (decide (k < length text - (i + length lc))) as [Hlt|Hge].
  - specialize (Hstop Hlt). apply negb_false_iff in Hstop.
    unfold charIs in Hstop. rewrite head_drop, lookup_drop in Hstop.
    rewrite Hstop. destruct (text !! _); done.
  - rewrite lookup_ge_None_2 by lia. done.
Qed.

Lemma charIs_drop p (text : str) e j :
  charIs p (drop j (drop e text)) = test p (text !! (e + j)).
Proof. unfold charIs. by rewrite head_drop, lookup_drop. Qed.

Lemma matchBlockComment_spec text i bc p :
  matchBlockComment text i bc = Done p ->
  exists c h,
    start p = keepLeftBlank text i /\
    start p + length (fst bc) <= c < length text /\
    startsWith (snd bc) (drop c text) = true /\
    (forall j, start p + length (fst bc) <= j < c ->
       startsWith (snd bc) (drop j text) = false) /\
    c + length (snd bc) <= h /\
    (forall j, c + length (snd bc) <= j < h -> test isBlank (text !! j) = true) /\
    test isBlank (text !! h) = false /\
    h <= pieceEnd p <= length text /\
    (forall j, h <= j < pieceEnd p -> test isNewline (text !! j) = true) /\
    test isNewline (text !! pieceEnd p) = false /\
    content p = slice text (start p) (pieceEnd p).
Proof.
  unfold matchBlockComment. set (s := keepLeftBlank text i).
  destruct (advanceWhile_spec (fun r => negb (startsWith (snd bc) r))
              (drop (s + length (fst bc)) text) (s + length (fst bc)))
    as (k1 & -> & Hk1 & Hrun1 & Hstop1).
  destruct (length text <=? s + length (fst bc) + k1) eqn:E; [done|].
  apply Nat.leb_gt in E. rewrite length_drop in Hk1, Hstop1.
  set (c := s + length (fst bc) + k1) in *.
  destruct (advanceWhile_spec (charIs isBlank) (drop (c + length (snd bc)) text)
              (c + length (snd bc))) as (k3 & -> & Hk3 & Hrun3 & Hstop3).
  set (h := c + length (snd bc) + k3) in *.
  destruct (advanceWhile_spec (charIs isNewline) (drop h text) h)
    as (k4 & -> & Hk4 & Hrun4 & Hstop4).
  rewrite length_drop in Hk3, Hstop3, Hk4, Hstop4.
  assert (Hclose : startsWith (snd bc) (drop c text) = true).
  { apply negb_false_iff. rewrite <- Hstop1 by lia.
    rewrite drop_drop. done. }
  pose proof (startsWith_length _ _ Hclose) as Hcl. rewrite length_drop in Hcl.
  intros [= <-]. exists c, h. cbn [start].
  assert (He : pieceEnd (mkPiece s (slice text s (h + k4))) = h + k4).
  { unfold pieceEnd. cbn [start content]. rewrite length_slice. lia. }
  rewrite He. cbn [content].
  split; [done|]. split; [lia|]. split; [done|]. split.
  { intros j Hj. apply negb_true_iff.
    specialize (Hrun1 (j - (s + length (fst bc)))). rewrite drop_drop in Hrun1.
    replace (s + length (fst bc) + (j - (s + length (fst bc)))) with j in Hrun1 by lia.
    apply Hrun1. lia. }
  split; [lia|]. split.
  { intros j Hj. specialize (Hrun3 (j - (c + length (snd bc)))).
    rewrite charIs_drop in Hrun3.
    replace (c + length (snd bc) + (j - (c + length (snd bc)))) with j in Hrun3 by lia.
    apply Hrun3. lia. }
  split.
  { destruct (decide (k3 < length text - (c + length (snd bc)))) as [Hlt|Hge].
    - specialize (Hstop3 Hlt). by rewrite charIs_drop in Hstop3.
    - rewrite lookup_ge_None_2; [done|]. lia. }
  split; [lia|]. split.
  { intros j Hj. specialize (Hrun4 (j - h)). rewrite charIs_drop in Hrun4.
    replace (h + (j - h)) with j in Hrun4 by lia. apply Hrun4. lia. }
  split; [|done].
  destruct (decide (k4 < length text - h)) as [Hlt|Hge].
  - specialize (Hstop4 Hlt). by rewrite charIs_drop in Hstop4.
  - rewrite lookup_ge_None_2; [done|]. lia.
Qed.

(** ** One round of the scanning loop *)

Lemma startsWith_one c rest :
  startsWith [c] rest = true <-> head rest = Some c.
Proof.
  destruct rest as [|x rest]; simpl; [done|]. rewrite andb_true_r.
  unfold eqc. rewrite N.eqb_eq. split; congruence.
Qed.

Lemma matchAt_cases text i st sp st' :
  matchAt languageConfig text i st = Done (sp, st') ->
  (text !! i = Some HASH /\ sp = Some (matchMacro text i)
     /\ st' = pushMacro (matchMacro text i) st)
  \/ (exists p, (text !! i = Some DQUOTE \/ text !! i = Some SQUOTE)
        /\ matchLiteral text i = Done p /\ sp = Some p /\ st' = pushLiteral p st)
  \/ (startsWith [SLASH; SLASH] (drop i text) = true
        /\ sp = Some (matchLineComment text i [SLASH; SLASH])
        /\ st' = pushComment (matchLineComment text i [SLASH; SLASH]) st)
  \/ (exists p, startsWith [SLASH; STAR] (drop i text) = true
        /\ matchBlockComment text i ([SLASH; STAR], [STAR; SLASH]) = Done p
        /\ sp = Some p /\ st' = pushComment p st)
  \/ (sp = None /\ st' = st).
Proof.
  unfold matchAt. cbn [languageConfig macroMark quoteMark inlineCommentMark
                        blockCommentMark fst snd tryQuotes].
  destruct (startsWith [HASH] (drop i text)) eqn:Hm.
  { apply startsWith_one in Hm. rewrite head_drop in Hm.
    cbn [bind]. intros [= <- <-]. by left. }
  cbn [bind].
  destruct (startsWith [DQUOTE] (drop i text)) eqn:Hd.
  { apply startsWith_one in Hd. rewrite head_drop in Hd.
    destruct (matchLiteral text i) as [p| |] eqn:Hl; cbn [bind]; try done.
    destruct (startsWith [SQUOTE] (drop i text)) eqn:Hs.
    { apply startsWith_one in Hs. rewrite head_drop, Hd in Hs.
      cbv in Hs. discriminate Hs. }
    cbn [bind]. intros [= <- <-]. right; left. exists p. eauto. }
  destruct (startsWith [SQUOTE] (drop i text)) eqn:Hs.
  { apply startsWith_one in Hs. rewrite head_drop in Hs.
    destruct (matchLiteral text i) as [p| |] eqn:Hl; cbn [bind]; try done.
    intros [= <- <-]. right; left. exists p. eauto. }
  cbn [bind].
  destruct (startsWith [SLASH; SLASH] (drop i text)) eqn:Hlc.
  { intros [= <- <-]. right; right; left. done. }
  destruct (startsWith [SLASH; STAR] (drop i text)) eqn:Hbc.
  { destruct (matchBlockComment text i ([SLASH; STAR], [STAR; SLASH]))
      as [p| |] eqn:Hb; cbn [bind]; try done.
    intros [= <- <-]. right; right; right; left. exists p. done. }
  intros [= <- <-]. right; right; right; right. done.
Qed.

Lemma matchLiteral_no_timeout text i : matchLiteral text i <> Timeout.
Proof. unfold matchLiteral. by destruct (_ <=? _). Qed.

Lemma matchBlockComment_no_timeout text i bc : matchBlockComment text i bc <> Timeout.
Proof. unfold matchBlockComment. by destruct (_ <=? _). Qed.

Lemma tryQuotes_no_timeout quotes text i sp st :
  tryQuotes quotes text i sp st <> Timeout.
Proof.
  revert sp st. induction quotes as [|q quotes IH]; intros sp st; simpl; [done|].
  destruct (startsWith q (drop i text)); [|apply IH].
  pose proof (matchLiteral_no_timeout text i).
  destruct (matchLiteral text i); simpl; [apply IH|done..].
Qed.

Lemma matchAt_no_timeout cfg text i st : matchAt cfg text i st <> Timeout.
Proof.
  unfold matchAt.
  destruct (startsWith (macroMark cfg) (drop i text)); cbn [bind].
  - destruct (startsWith (inlineCommentMark cfg) (drop i text)); done.
  - pose proof (tryQuotes_no_timeout (quoteMark cfg) text i None st) as Hq.
    destruct (tryQuotes (quoteMark cfg) text i None st) as [[[p|] st1]| |];
      cbn [bind]; try done.
    destruct (startsWith (inlineCommentMark cfg) (drop i text)); [done|].
    destruct (startsWith (fst (blockCommentMark cfg)) (drop i text)); [|done].
    pose proof (matchBlockComment_no_timeout text i (blockCommentMark cfg)).
    destruct (matchBlockComment text i (blockCommentMark cfg)); done.
Qed.

(** A region found at offset [i] starts at [i] or before it and ends
    behind it, inside the text. *)
Lemma matchAt_progress text i st p st' :
  i < length text ->
  matchAt languageConfig text i st = Done (Some p, st') ->
  start p <= i /\ i < pieceEnd p <= length text.
Proof.
  intros Hi H. apply matchAt_cases in H
    as [(Hc & [= ->] & _)|[(q & _ & Hl & [= ->] & _)
       |[(Hs & [= ->] & _)|[(q & Hs & Hb & [= ->] & _)|[? _]]]]]; [..|done].
  - apply matchMacro_end in Hc. tauto.
  - apply matchLiteral_spec in Hl as (e & He & _ & -> & Hend).
    rewrite Hend. cbn [start]. lia.
  - destruct (matchLineComment_spec text i [SLASH; SLASH] Hi Hs) as (-> & He & _).
    simpl in He. lia.
  - apply matchBlockComment_spec in Hb
      as (c & h & Hst & Hc & Hcl & _ & Hh & _ & _ & He & _).
    pose proof (keepLeftBlank_le text i) as Hle. rewrite <- Hst in Hle.
    split; [done|]. split; [|lia]. cbn [fst snd length] in *.
    destruct (decide (i <= c)) as [|Hn]; [lia|]. exfalso.
    assert (Hstar : text !! c = Some STAR).
    { rewrite <- (Nat.add_0_r c), <- lookup_drop.
      by apply (startsWith_lookup [STAR; SLASH]). }
    assert (Hbl : test isBlank (text !! c) = true).
    { apply (keepLeftBlank_blank text i). rewrite <- Hst. lia. }
    rewrite Hstar in Hbl. done.
Qed.

(** ** The scanning loop *)

Lemma scanFrom_no_timeout fuel : forall text i st,
  length text - i < fuel -> scanFrom languageConfig fuel text i st <> Timeout.
Proof.
  induction fuel as [|fuel IH]; intros text i st Hf; [lia|].
  cbn [scanFrom]. destruct (length text <=? i) eqn:E; [done|].
  apply Nat.leb_gt in E.
  pose proof (matchAt_no_timeout languageConfig text i st) as Hn.
  destruct (matchAt languageConfig text i st) as [[[p|] st1]| |] eqn:Hm;
    cbn [bind]; try done.
  - apply IH. apply matchAt_progress in Hm; [|done].
    unfold closeRun, pushSource, pieceEnd in *. cbn [s_lastIndex]. lia.
  - apply IH. lia.
Qed.

Lemma scanFrom_more_fuel cfg fuel : forall fuel' text i st,
  scanFrom cfg fuel text i st <> Timeout -> fuel <= fuel' ->
  scanFrom cfg fuel' text i st = scanFrom cfg fuel text i st.
Proof.
  induction fuel as [|fuel IH]; intros fuel' text i st Hn Hf; [done|].
  destruct fuel' as [|fuel']; [lia|]. cbn [scanFrom] in *.
  destruct (length text <=? i); [done|].
  destruct (matchAt cfg text i st) as [[[p|] st1]| |]; cbn [bind] in *; try done;
    apply IH; (done || lia).
Qed.

Lemma scanFrom_loopState fuel : forall text i st st',
  loopState text i st -> scanFrom languageConfig fuel text i st = Done st' ->
  exists i', loopState text i' st' /\ length text <= i'.
Proof.
  induction fuel as [|fuel IH]; intros text i st st' Hl H; [done|].
  cbn [scanFrom] in H. destruct (length text <=? i) eqn:E.
  - injection H as <-. apply Nat.leb_le in E. eauto.
  - apply Nat.leb_gt in E.
    destruct (matchAt languageConfig text i st) as [[[p|] st1]| |] eqn:Hm;
      cbn [bind] in H; try done.
    + eapply IH; [|exact H]. by eapply loop_match.
    + eapply IH; [|exact H]. by eapply loop_skip.
Qed.

Lemma loopState_lastIndex text i st :
  loopState text i st -> s_lastIndex st <= i.
Proof.
  induction 1 as [|i st st' Hl IH Hi Hm|i st p st' Hl IH Hi Hm]; [done| |done].
  apply matchAt_cases in Hm
    as [(_ & [=] & _)|[(q & _ & _ & [=] & _)
       |[(_ & [=] & _)|[(q & _ & _ & [=] & _)|[_ ->]]]]]. lia.
Qed.

Lemma scan_never_times_out text :
  partition text <> Timeout
  /\ scanFrom languageConfig (S (length text)) text 0 emptyScan <> Timeout.
Proof.
  assert (Hn : scanFrom languageConfig (S (length text)) text 0 emptyScan <> Timeout)
    by (apply scanFrom_no_timeout; lia).
  split; [|done]. unfold partition, scan, scanWith.
  destruct (scanFrom languageConfig (S (length text)) text 0 emptyScan); done.
Qed.

Lemma scanFrom_step cfg fuel text i st :
  i < length text ->
  scanFrom cfg (S fuel) text i st
  = bind (matchAt cfg text i st) (fun r =>
      match fst r with
      | None => scanFrom cfg fuel text (S i) (snd r)
      | Some p =>
          scanFrom cfg fuel text (s_lastIndex (closeRun text p (snd r)))
            (closeRun text p (snd r))
      end).
Proof.
  intros Hi. cbn [scanFrom]. apply Nat.leb_gt in Hi. rewrite Hi.
  by destruct (matchAt cfg text i st) as [[[p|] st1]| |].
Qed.

(** The loop passes through every state of [loopState]. *)
Lemma loopState_scanFrom text i st :
  loopState text i st ->
  scanFrom languageConfig (S (length text)) text 0 emptyScan
  = scanFrom languageConfig (S (length text)) text i st.
Proof.
  induction 1 as [|i st st' Hl IH Hi Hm|i st p st' Hl IH Hi Hm]; [done|..];
    rewrite IH, (scanFrom_step _ _ _ i st), Hm by done; cbn [bind fst snd];
    symmetry; (apply scanFrom_more_fuel; [|lia]); apply scanFrom_no_timeout.
  - lia.
  - pose proof (matchAt_progress _ _ _ _ _ Hi Hm) as (_ & Hp).
    unfold pieceEnd in Hp. cbn [closeRun pushSource s_lastIndex]. lia.
Qed.

(** ** Failure *)

Lemma matchBlockComment_fatal text i bc f :
  matchBlockComment text i bc = Fatal f <->
  f = UnterminatedBlockComment /\
  forall c, keepLeftBlank text i + length (fst bc) <= c < length text ->
            startsWith (snd bc) (drop c text) = false.
Proof.
  unfold matchBlockComment. set (s := keepLeftBlank text i).
  destruct (advanceWhile_spec (fun r => negb (startsWith (snd bc) r))
              (drop (s + length (fst bc)) text) (s + length (fst bc)))
    as (k & -> & Hk & Hrun & Hstop).
  rewrite length_drop in Hk, Hstop.
  destruct (length text <=? s + length (fst bc) + k) eqn:E.
  - apply Nat.leb_le in E. split; [|by intros [-> _]].
    intros [= <-]. split; [done|]. intros c Hc. apply negb_true_iff.
    specialize (Hrun (c - (s + length (fst bc)))). rewrite drop_drop in Hrun.
    replace (s + length (fst bc) + (c - (s + length (fst bc)))) with c in Hrun by lia.
    apply Hrun. lia.
  - apply Nat.leb_gt in E. split; [done|]. intros [_ H]. exfalso.
    assert (Hc : startsWith (snd bc) (drop (s + length (fst bc) + k) text) = true).
    { apply negb_false_iff. rewrite <- Hstop by lia. by rewrite drop_drop. }
    rewrite H in Hc; [done|lia].
Qed.

Lemma matchAt_fatal text i st f :
  matchAt languageConfig text i st = Fatal f ->
  ((text !! i = Some DQUOTE \/ text !! i = Some SQUOTE)
     /\ matchLiteral text i = Fatal f)
  \/ (startsWith [SLASH; STAR] (drop i text) = true
      /\ matchBlockComment text i ([SLASH; STAR], [STAR; SLASH]) = Fatal f).
Proof.
  unfold matchAt. cbn [languageConfig macroMark quoteMark inlineCommentMark
                        blockCommentMark fst snd tryQuotes].
  destruct (startsWith [HASH] (drop i text)); cbn [bind]; [done|].
  destruct (startsWith [DQUOTE] (drop i text)) eqn:Hd.
  { apply startsWith_one in Hd. rewrite head_drop in Hd.
    destruct (matchLiteral text i) as [p|f'|] eqn:Hl; cbn [bind].
    - destruct (startsWith [SQUOTE] (drop i text)) eqn:Hs.
      { apply startsWith_one in Hs. rewrite head_drop, Hd in Hs.
        cbv in Hs. discriminate Hs. }
      done.
    - intros [= <-]. left. eauto.
    - done. }
  destruct (startsWith [SQUOTE] (drop i text)) eqn:Hs.
  { apply startsWith_one in Hs. rewrite head_drop in Hs.
    destruct (matchLiteral text i) as [p|f'|] eqn:Hl; cbn [bind]; try done.
    intros [= <-]. left. eauto. }
  cbn [bind].
  destruct (startsWith [SLASH; SLASH] (drop i text)); [done|].
  destruct (startsWith [SLASH; STAR] (drop i text)) eqn:Hbc; [|done].
  destruct (matchBlockComment text i ([SLASH; STAR], [STAR; SLASH]))
    as [p|f'|] eqn:Hb; cbn [bind]; try done.
  intros [= <-]. right. done.
Qed.

(** [partition] fails exactly when the loop reaches an offset at which a
    matcher fails. *)
Lemma partition_fatal_iff text f :
  partition text = Fatal f <->
  exists i st, loopState text i st /\ i < length text
               /\ matchAt languageConfig text i st = Fatal f.
Proof.
  split.
  - unfold partition, scan, scanWith.
    assert (Hgen : forall fuel i st,
      loopState text i st -> scanFrom languageConfig fuel text i st = Fatal f ->
      exists i st, loopState text i st /\ i < length text
                   /\ matchAt languageConfig text i st = Fatal f).
    { induction fuel as [|fuel IH]; intros i st Hl H; [done|].
      cbn [scanFrom] in H. destruct (length text <=? i) eqn:E; [done|].
      apply Nat.leb_gt in E.
      destruct (matchAt languageConfig text i st) as [[[p|] st1]|f'|] eqn:Hm;
        cbn [bind] in H; try done.
      - eapply IH; [|exact H]. by eapply loop_match.
      - eapply IH; [|exact H]. by eapply loop_skip.
      - injection H as ->. eauto. }
    destruct (scanFrom languageConfig (S (length text)) text 0 emptyScan)
      as [st| |] eqn:E; cbn [bind]; try done.
    intros [= <-]. eapply Hgen; [constructor|exact E].
  - intros (i & st & Hl & Hi & Hm). unfold partition, scan, scanWith.
    by rewrite (loopState_scanFrom _ _ _ Hl), scanFrom_step, Hm by done.
Qed.

(** A text without a quote and without [/*] is partitioned without
    error; so is the empty text. *)
Lemma partition_without_openers text :
  (forall i, text !! i <> Some DQUOTE /\ text !! i <> Some SQUOTE
             /\ startsWith [SLASH; STAR] (drop i text) = false) ->
  exists item, partition text = Done item.
Proof.
  intros H. pose proof (proj1 (scan_never_times_out text)) as Hn.
  destruct (partition text) as [item|f|] eqn:E; [eauto| |done].
  apply partition_fatal_iff in E as (i & st & _ & _ & Hm).
  apply matchAt_fatal in Hm as [[[Hq|Hq] _]|[Hs _]]; destruct (H i) as (? & ? & Hb);
    [done|done|]. by rewrite Hb in Hs.
Qed.

(** * The claims *)

(** ** Termination *)

(** C10: [partition] terminates on every input: with the fuel it is given
    (one unit more than the length of the text) the scanning loop never
    runs out, and more fuel does not change the result.  In every state the
    loop reaches, a region returned by a matcher moves [lastIndex] to the
    region's start plus the length of its content, which is strictly
    greater than the old [lastIndex] and than the cursor and not behind the
    end of the text, and the loop resumes at the new [lastIndex]. *)
Theorem partition_terminates (text : str) :
  partition text <> Timeout
  /\ (forall fuel, S (length text) <= fuel ->
        scanWith languageConfig fuel text = scan text)
  /\ (forall i st p st',
        loopState text i st -> i < length text ->
        matchAt languageConfig text i st = Done (Some p, st') ->
        let next := closeRun text p st' in
        s_lastIndex next = start p + length (content p)
        /\ s_lastIndex st < s_lastIndex next
        /\ i < s_lastIndex next <= length text
        /\ loopState text (s_lastIndex next) next).
Proof.
  assert (Hn : scanFrom languageConfig (S (length text)) text 0 emptyScan <> Timeout)
    by (apply scanFrom_no_timeout; lia).
  split; [|split].
  - unfold partition, scan, scanWith.
    destruct (scanFrom languageConfig (S (length text)) text 0 emptyScan); done.
  - intros fuel Hf. unfold scan, scanWith.
    by rewrite (scanFrom_more_fuel _ (S (length text)) fuel).
  - intros i st p st' Hl Hi Hm next.
    pose proof (loopState_lastIndex _ _ _ Hl) as Hle.
    pose proof (matchAt_progress _ _ _ _ _ Hi Hm) as (Hs & He).
    assert (Hst : s_lastIndex st' = s_lastIndex st).
    { apply matchAt_cases in Hm
        as [(_ & _ & ->)|[(q & _ & _ & _ & ->)
           |[(_ & _ & ->)|[(q & _ & _ & _ & ->)|[_ ->]]]]]; done. }
    unfold pieceEnd in He. subst next. cbn [closeRun pushSource s_lastIndex].
    split; [done|]. split; [lia|]. split; [lia|].
    by apply (loop_match text i st p st').
Qed.

Lemma partition_terminates_witness :
  let text := txt "#x" in
  let p := matchMacro text 0 in
  let st' := pushMacro p emptyScan in
  loopState text 0 emptyScan /\ 0 < length text
  /\ matchAt languageConfig text 0 emptyScan = Done (Some p, st')
  /\ s_lastIndex emptyScan < s_lastIndex (closeRun text p st').
Proof.
  intros text p st'.
  assert (H0 : loopState text 0 emptyScan) by constructor.
  assert (H1 : 0 < length text) by (cbn; lia).
  assert (H2 : matchAt languageConfig text 0 emptyScan = Done (Some p, st'))
    by reflexivity.
  split; [exact H0|]. split; [exact H1|]. split; [exact H2|].
  exact (proj1 (proj2 (proj2 (proj2 (partition_terminates text))
                         0 emptyScan p st' H0 H1 H2))).
Defined.

(** ** The block-comment matcher *)

(** C7: the block-comment matcher moves the start of the region back over
    the blanks (tabs and spaces) before the opening token, as far as they
    go; behind the closing token it takes the blanks that follow, all of
    them, and then the newlines that follow those, all of them.  For two
    spaces, [/* hi */], two spaces, a newline and [code], the comment
    region is the text up to and including the newline, and the plain run
    that follows starts at [code]. *)
Theorem blockComment_absorbs_blanks_and_newlines :
  (forall text i p,
     startsWith [SLASH; STAR] (drop i text) = true ->
     matchBlockComment text i ([SLASH; STAR], [STAR; SLASH]) = Done p ->
     (start p <= i
      /\ (forall j, start p <= j < i -> test isBlank (text !! j) = true)
      /\ (start p = 0 \/ test isBlank (text !! (start p - 1)) = false))
     /\ exists c h,
          startsWith [STAR; SLASH] (drop c text) = true
          /\ c + 2 <= h <= pieceEnd p
          /\ (forall j, c + 2 <= j < h -> test isBlank (text !! j) = true)
          /\ test isBlank (text !! h) = false
          /\ (forall j, h <= j < pieceEnd p -> text !! j = Some NL)
          /\ text !! pieceEnd p <> Some NL
          /\ content p = slice text (start p) (pieceEnd p))
  /\ (let text := txt "  /* hi */  " ++ [NL] ++ txt "code" in
      matchBlockComment text 2 ([SLASH; STAR], [STAR; SLASH])
      = Done (mkPiece 0 (txt "  /* hi */  " ++ [NL]))
      /\ exists item, partition text = Done item
           /\ comments item = [mkPiece 0 (txt "  /* hi */  " ++ [NL])]
           /\ sources item = [mkPiece 13 (txt "code")]).
Proof.
  split.
  - intros text i p _ H.
    apply matchBlockComment_spec in H
      as (c & h & Hst & Hc & Hcl & _ & Hh & Hbl & Hnb & He & Hnl & Hnn & Hco).
    cbn [fst snd length] in *. split.
    + rewrite Hst. split; [apply keepLeftBlank_le|]. split.
      * intros j Hj. by apply (keepLeftBlank_blank text i).
      * destruct (keepLeftBlank_stop text i) as [->|(q & -> & Hq)]; [by left|].
        right. by rewrite Nat.sub_succ, Nat.sub_0_r.
    + exists c, h. split; [done|]. split; [lia|]. split; [done|]. split; [done|].
      split; [|split; [|done]].
      * intros j Hj. specialize (Hnl j Hj).
        destruct (text !! j) as [x|]; [|done]. simpl in Hnl.
        apply N.eqb_eq in Hnl. by subst.
      * intros Heq. by rewrite Heq in Hnn.
  - split; [reflexivity|]. eexists. split; [vm_compute; reflexivity|].
    split; reflexivity.
Qed.

Lemma blockComment_absorbs_blanks_and_newlines_witness :
  let text := txt " /*x*/ " ++ [NL] ++ txt "y" in
  startsWith [SLASH; STAR] (drop 1 text) = true
  /\ matchBlockComment text 1 ([SLASH; STAR], [STAR; SLASH])
     = Done (mkPiece 0 (txt " /*x*/ " ++ [NL]))
  /\ start (mkPiece 0 (txt " /*x*/ " ++ [NL])) <= 1.
Proof.
  intros text.
  assert (H1 : startsWith [SLASH; STAR] (drop 1 text) = true) by reflexivity.
  assert (H2 : matchBlockComment text 1 ([SLASH; STAR], [STAR; SLASH])
               = Done (mkPiece 0 (txt " /*x*/ " ++ [NL]))) by reflexivity.
  split; [exact H1|]. split; [exact H2|].
  exact (proj1 (proj1 (proj1 blockComment_absorbs_blanks_and_newlines _ _ _ H1 H2))).
Defined.

(** ** The literal matcher *)

(** C8: in the literal matcher a backslash takes the character behind it
    with it, whatever that character is, so a quote behind a backslash does
    not end the literal: the region a literal matcher returns ends at the
    first quote of the opening kind that is not escaped, all quotes before
    it being escaped.  For a quote, [a], a backslash, a quote, [b] and a
    quote, the region is all six characters. *)
Theorem literal_escape_skips_next :
  (forall quote x rest e,
     quote <> Some BACKSLASH ->
     literalEnd quote (BACKSLASH :: x :: rest) e
     = literalEnd quote rest (S (S e)))
  /\ (forall text i q p,
        text !! i = Some q -> q <> BACKSLASH ->
        matchLiteral text i = Done p ->
        let body := drop (S i) text in
        exists k, body !! k = Some q /\ escaped body k = false
          /\ (forall j, j < k -> body !! j = Some q -> escaped body j = true)
          /\ p = mkPiece i (slice text i (i + k + 2)))
  /\ (let text := [DQUOTE] ++ txt "a\" ++ [DQUOTE] ++ txt "b" ++ [DQUOTE] in
      length text = 6
      /\ matchLiteral text 0 = Done (mkPiece 0 text)
      /\ escaped (drop 1 text) 2 = true
      /\ escaped (drop 1 text) 4 = false
      /\ exists item, partition text = Done item
           /\ literals item = [mkPiece 0 text]).
Proof.
  split; [|split].
  - intros quote x rest e Hq. by apply literalEnd_backslash.
  - intros text i q p Hi Hq H body.
    destruct (matchLiteral_unescaped text i q Hi Hq)
      as [(k & Hd & Hk & He & Hb)|[Hf _]]; [|congruence].
    exists k. rewrite Hd in H. injection H as <-. done.
  - split; [reflexivity|]. split; [reflexivity|]. split; [reflexivity|].
    split; [reflexivity|].
    eexists. split; [vm_compute; reflexivity|]. reflexivity.
Qed.

Lemma literal_escape_skips_next_witness :
  (Some DQUOTE <> Some BACKSLASH
   /\ literalEnd (Some DQUOTE) (BACKSLASH :: DQUOTE :: txt "b" ++ [DQUOTE]) 2 = 5)
  /\ (let text := txt "c = '\'';" in
      let p := mkPiece 4 (txt "'\''") in
      text !! 4 = Some SQUOTE /\ SQUOTE <> BACKSLASH
      /\ matchLiteral text 4 = Done p
      /\ exists k, drop 5 text !! k = Some SQUOTE
           /\ escaped (drop 5 text) k = false
           /\ (forall j, j < k -> drop 5 text !! j = Some SQUOTE ->
                 escaped (drop 5 text) j = true)
           /\ p = mkPiece 4 (slice text 4 (4 + k + 2))).
Proof.
  assert (H : Some DQUOTE <> Some BACKSLASH) by discriminate.
  split.
  - split; [exact H|].
    exact (eq_trans
             (proj1 literal_escape_skips_next (Some DQUOTE) DQUOTE
                (txt "b" ++ [DQUOTE]) 2 H)
             eq_refl).
  - intros text p.
    assert (H0 : text !! 4 = Some SQUOTE) by reflexivity.
    assert (Hq : SQUOTE <> BACKSLASH) by discriminate.
    assert (H1 : matchLiteral text 4 = Done p) by reflexivity.
    split; [exact H0|]. split; [exact Hq|]. split; [exact H1|].
    exact (proj1 (proj2 literal_escape_skips_next) text 4 SQUOTE p H0 Hq H1).
Defined.

(** ** Replacing, and the set of dependencies *)

Lemma replaceAll_skip r s k : replaceAll r s k = replaceAll r (drop k s) 0.
Proof.
  revert k. induction s as [|x s IH]; intros [|k]; try done. simpl. apply IH.
Qed.

Lemma replaceAll_match r s n g :
  matchAtHead r s = Some (S n, g) ->
  replaceAll r s 0
  = (fst (replaceAll r (drop (S n) s) 0), g :: snd (replaceAll r (drop (S n) s) 0)).
Proof.
  intros H. destruct s as [|x s].
  - apply matchAtHead_sound in H as (pre & suf & Hs & Hn & _).
    symmetry in Hs. apply app_eq_nil in Hs as [-> ->]. done.
  - cbn [replaceAll]. rewrite H. rewrite (replaceAll_skip r s n). simpl drop.
    by destruct (replaceAll r (drop n s) 0).
Qed.

Lemma replaceAll_no_match r x s :
  matchAtHead r (x :: s) = None ->
  replaceAll r (x :: s) 0
  = (x :: fst (replaceAll r s 0), snd (replaceAll r s 0)).
Proof. intros H. cbn [replaceAll]. rewrite H. by destruct (replaceAll r s 0). Qed.

Lemma setOf_foldl l : setOf l = foldl addToSet [] l.
Proof. done. Qed.

Lemma addToSet_nil y : addToSet [] y = [y].
Proof.
  unfold addToSet. by rewrite bool_decide_eq_false_2 by apply not_elem_of_nil.
Qed.

Lemma foldl_addToSet_bounded n : forall l acc, length l <= n ->
  foldl addToSet acc l = acc ++ foldl addToSet [] (filter (fun y => y ∉ acc) l).
Proof.
  induction n as [|n IH]; intros [|y l] acc Hn; simpl in Hn;
    try lia; try (by rewrite app_nil_r).
  cbn [foldl]. unfold addToSet at 2. case_bool_decide as Hy.
  - rewrite filter_cons_False by tauto. apply IH. lia.
  - rewrite filter_cons_True by done. cbn [foldl]. rewrite addToSet_nil.
    rewrite (IH l (acc ++ [y])) by lia.
    rewrite (IH (filter (fun y0 => y0 ∉ acc) l) [y])
      by (pose proof (length_filter (fun y0 => y0 ∉ acc) l); lia).
    rewrite <- app_assoc. do 3 f_equal.
    rewrite list_filter_filter. apply list_filter_iff.
    intros z. rewrite !elem_of_app. tauto.
Qed.

Lemma foldl_addToSet acc l :
  foldl addToSet acc l = acc ++ foldl addToSet [] (filter (fun y => y ∉ acc) l).
Proof. by apply (foldl_addToSet_bounded (length l)). Qed.

(** The elements come in the order of their first occurrence: the head
    stays where it is and its later copies go. *)
Lemma setOf_cons x l : setOf (x :: l) = x :: setOf (filter (fun y => y <> x) l).
Proof.
  rewrite !setOf_foldl. cbn [foldl]. rewrite addToSet_nil.
  rewrite foldl_addToSet. simpl. do 2 f_equal. apply list_filter_iff.
  intros z. rewrite list_elem_of_singleton. tauto.
Qed.

Lemma setOf_elem_of l : forall x, x ∈ setOf l <-> x ∈ l.
Proof.
  remember (length l) as n eqn:Hn. revert l Hn.
  induction n as [n IH] using lt_wf_ind. intros [|y l] Hn x; [done|].
  rewrite setOf_cons, !elem_of_cons.
  rewrite (IH (length (filter (fun z => z <> y) l))); [| |done].
  - rewrite list_elem_of_filter. destruct (decide (x = y)); tauto.
  - subst n. simpl. pose proof (length_filter (fun z => z <> y) l). lia.
Qed.

Lemma setOf_NoDup l : NoDup (setOf l).
Proof.
  remember (length l) as n eqn:Hn. revert l Hn.
  induction n as [n IH] using lt_wf_ind. intros [|y l] Hn; [constructor|].
  rewrite setOf_cons. constructor.
  - rewrite setOf_elem_of, list_elem_of_filter. tauto.
  - apply (IH (length (filter (fun z => z <> y) l))); [|done].
    subst n. simpl. pose proof (length_filter (fun z => z <> y) l). lia.
Qed.

Lemma partition_done text item :
  partition text = Done item -> exists st, scan text = Done st /\ item = assemble st.
Proof.
  unfold partition. destruct (scan text) as [st| |]; cbn [bind]; try done.
  intros [= <-]. eauto.
Qed.

Lemma assemble_macros st :
  macros (assemble st) = fst (forEachReplace getImportRegex (s_macros st)).
Proof.
  unfold assemble. destruct (forEachReplace getImportRegex (s_macros st)).
  destruct (forEachReplace getNamespaceRegex (s_sources st)) as [src ?].
  by destruct (forEachReplace getTypedefRegex src).
Qed.

Lemma assemble_dependencies st :
  dependencies (assemble st)
  = filter (fun d => notEmpty d = true)
      (setOf (map (group 1) (snd (forEachReplace getImportRegex (s_macros st))))).
Proof.
  unfold assemble. destruct (forEachReplace getImportRegex (s_macros st)).
  destruct (forEachReplace getNamespaceRegex (s_sources st)) as [src ?].
  by destruct (forEachReplace getTypedefRegex src).
Qed.

(** No namespace of the result is the empty string. *)
Lemma namespaces_not_empty text item :
  partition text = Done item -> forall ns, ns ∈ namespaces item -> ns <> [].
Proof.
  intros H ns Hns ->. apply partition_done in H as (st & _ & ->).
  unfold assemble in Hns. destruct (forEachReplace getImportRegex (s_macros st)).
  destruct (forEachReplace getNamespaceRegex (s_sources st)) as [src ?].
  destruct (forEachReplace getTypedefRegex src). cbn [namespaces] in Hns.
  apply list_elem_of_filter in Hns as [Hns _]. done.
Qed.

(** ** Dependencies *)

(** The literal characters of a pattern match themselves. *)
Lemma matchHere_lit w r s i c :
  matchHere (map (fun ch => Atom (eqc ch) Once) w ++ r) (w ++ s) i c
  = matchHere r s (i + length w) c.
Proof.
  revert i. induction w as [|ch w IH]; intros i.
  - simpl. by rewrite Nat.add_0_r.
  - cbn [map app matchHere length]. unfold eqc at 1. rewrite N.eqb_refl, IH.
    f_equal. lia.
Qed.

(** The matcher on a run of characters of one class: a greedy item takes
    the whole run when what follows is not of the class, a lazy one the
    whole run when the rest of the pattern fails inside it. *)
Lemma greedy_run p k run rest i c res :
  Forall (fun x => p x = true) run -> test p (head rest) = false ->
  k rest (i + length run) c = Some res ->
  greedy p k (run ++ rest) i c = Some res.
Proof.
  intros Hrun Hrest. revert i. induction Hrun as [|y run Hy _ IH]; intros i Hk.
  - cbn [app length] in *. rewrite Nat.add_0_r in Hk.
    destruct rest as [|x rest]; [done|]. cbn in Hrest. cbn [greedy].
    by rewrite Hrest.
  - cbn [app greedy]. rewrite Hy, IH; [done|].
    cbn [length] in Hk. by replace (S i + length run) with (i + S (length run)) by lia.
Qed.

Lemma reluctant_run p k run rest i c res :
  Forall (fun x => p x = true /\ forall s j, k (x :: s) j c = None) run ->
  k rest (i + length run) c = Some res ->
  reluctant p k (run ++ rest) i c = Some res.
Proof.
  intros Hrun. revert i. induction Hrun as [|y run [Hy Hk] _ IH]; intros i Hres.
  - cbn [app length] in *. rewrite Nat.add_0_r in Hres.
    destruct rest; cbn [reluctant]; by rewrite Hres.
  - cbn [app reluctant]. rewrite Hk, Hy. apply IH.
    cbn [length] in Hres. by replace (S i + length run) with (i + S (length run)) by lia.
Qed.

Lemma oneOf_two a b x : oneOf [a; b] x = true -> x = a \/ x = b.
Proof.
  unfold oneOf. intros H%bool_decide_eq_true.
  apply elem_of_cons in H as [?|H]; [by left|].
  apply list_elem_of_singleton in H. by right.
Qed.

Lemma opener_not_space o : oneOf [chr "<"; DQUOTE] o = true -> isSpace o = false.
Proof. by intros [-> | ->]%oneOf_two. Qed.

Lemma closer_not_path c : oneOf [chr ">"; DQUOTE] c = true -> isPathChar c = false.
Proof. by intros [-> | ->]%oneOf_two. Qed.

Lemma length_directive sp o path c sp' :
  length (directive sp o path c sp')
  = 8 + length sp + 1 + length path + 1 + length sp' + 1.
Proof.
  unfold directive. rewrite !length_app. cbn [length]. rewrite !length_app.
  cbn [length]. rewrite !length_app. cbn [length].
  change (length (txt "#include")) with 8. lia.
Qed.

Lemma matchAtHead_directive sp o path c sp' post :
  wellFormed sp o path c sp' ->
  matchAtHead getImportRegex (directive sp o path c sp' ++ post)
  = Some (length (directive sp o path c sp'), [path]).
Proof.
  intros (Hsp & Ho & Hne & Hpath & Hc & Hsp').
  destruct path as [|x path]; [done|]. apply Forall_cons in Hpath as [Hx Hpath].
  set (b := 8 + length sp + 1). set (e := b + S (length path)).
  assert (Hm : matchHere getImportRegex (directive sp o (x :: path) c sp' ++ post)
                 0 ([], [])
               = Some (S (S e + length sp'), ([], [(b, e)]))).
  { unfold getImportRegex, directive, lit. rewrite <- app_assoc, matchHere_lit.
    change (0 + length (txt "#include")) with 8.
    rewrite <- app_assoc. cbn [matchHere].
    apply greedy_run; [done|exact (opener_not_space o Ho)|].
    cbn [app]. rewrite Ho. cbn [fst snd].
    change (isWord x || oneOf [chr "-"; chr "_"; chr "."; chr ":"; SLASH; BACKSLASH] x)
      with (isPathChar x). rewrite Hx.
    rewrite <- app_assoc.
    apply (greedy_run isPathChar); [done|exact (closer_not_path c Hc)|].
    cbn [app fst snd]. rewrite Hc. rewrite <- app_assoc.
    apply reluctant_run.
    - eapply Forall_impl; [exact Hsp'|]. intros y [Hy Hn]. split; [done|].
      intros s j. cbn [matchHere]. destruct (eqc NL y) eqn:E; [|done].
      apply N.eqb_eq in E. by subst.
    - cbn [app]. unfold eqc. rewrite N.eqb_refl. subst b e. f_equal. f_equal; [lia|].
      f_equal. f_equal. f_equal; lia. }
  unfold matchAtHead. rewrite Hm. cbn [map fst snd]. f_equal. f_equal.
  - rewrite length_directive. subst b e. cbn [length]. lia.
  - f_equal. unfold directive.
    apply (slice_at _ (txt "#include" ++ sp ++ [o]) (x :: path)
             (c :: sp' ++ [NL] ++ post)).
    + by flatten.
    + subst b. rewrite !length_app. change (length (txt "#include")) with 8.
      cbn [length]. lia.
    + subst b e. cbn [length]. lia.
Qed.

(** A match of the include pattern holds [#] as its first character only. *)
Lemma accepts_lit w pre :
  accepts (map (fun ch => Atom (eqc ch) Once) w) pre -> pre = w.
Proof.
  revert pre. induction w as [|ch w IH]; intros pre H; [done|].
  cbn [map accepts] in H. destruct H as (x & pre' & -> & Hx & H).
  apply N.eqb_eq in Hx as <-. f_equal. by apply IH.
Qed.

Lemma class_without (p : char -> bool) (h : char) run :
  p h = false -> Forall (fun x => p x = true) run -> Forall (fun x => x <> h) run.
Proof.
  intros Hh Hrun. eapply Forall_impl; [exact Hrun|]. intros x Hx ->. congruence.
Qed.

Lemma import_one_hash m :
  accepts getImportRegex m ->
  exists m', m = HASH :: m' /\ Forall (fun x => x <> HASH) m'.
Proof.
  intros H. unfold getImportRegex, lit in H.
  apply accepts_app in H as (p1 & p2 & -> & H1 & H).
  apply accepts_lit in H1 as ->. cbn [accepts] in H.
  destruct H as (r1 & ? & -> & Hr1 & op & ? & -> & Hop & x & path & ? & -> & Hx &
                 Hpath & cl & ? & -> & Hcl & run & ? & -> & Hrun & nl & ? & -> &
                 Hnl & ->).
  exists (txt "include" ++ r1 ++ op :: x :: path ++ cl :: run ++ [nl]).
  split; [done|].
  assert (Hone : forall (p : char -> bool) y, p HASH = false -> p y = true -> y <> HASH)
    by (intros p y Hh Hy ->; congruence).
  repeat first [apply Forall_app; split | apply Forall_cons; split | apply Forall_nil].
  all: try done.
  all: try (eapply Hone; [|eassumption]; done).
  all: try (eapply class_without; [|eassumption]; done).
  - apply (Hone isPathChar x); [by vm_compute|exact Hx].
  - apply (class_without isPathChar HASH path); [by vm_compute|exact Hpath].
Qed.

Lemma matchAtHead_not_hash s :
  head s <> Some HASH -> matchAtHead getImportRegex s = None.
Proof.
  intros H. unfold matchAtHead, getImportRegex.
  change (lit "#include") with (Atom (eqc HASH) Once :: lit "include").
  cbn [app matchHere]. destruct s as [|x s]; [done|].
  destruct (eqc HASH x) eqn:E; [|done]. apply N.eqb_eq in E. by subst.
Qed.

(** A match that starts before a directive ends before it. *)
Lemma matchAtHead_before pre d rest n g :
  head d = Some HASH ->
  matchAtHead getImportRegex (pre ++ d ++ rest) = Some (n, g) ->
  0 < length pre -> n <= length pre.
Proof.
  intros Hd H Hpre. apply matchAtHead_sound in H as (m & suf & Hs & -> & Hacc).
  apply import_one_hash in Hacc as (m' & -> & Hm').
  destruct (decide (length (HASH :: m') <= length pre)) as [|Hgt]; [done|exfalso].
  assert (Hl : (pre ++ d ++ rest) !! length pre = Some HASH).
  { rewrite lookup_app_r by lia. rewrite Nat.sub_diag.
    destruct d as [|y d]; [done|]. by injection Hd as ->. }
  rewrite Hs in Hl. cbn [length] in Hgt.
  rewrite lookup_app_l in Hl by (cbn [length]; lia).
  destruct (length pre) as [|j] eqn:E; [lia|]. cbn in Hl.
  eapply Forall_lookup_1 in Hm'; [|exact Hl]. done.
Qed.

Lemma replaceAll_directive_first pre sp o path c sp' post :
  wellFormed sp o path c sp' -> Forall (fun x => x <> HASH) pre ->
  replaceAll getImportRegex (pre ++ directive sp o path c sp' ++ post) 0
  = (pre ++ fst (replaceAll getImportRegex post 0),
     [path] :: snd (replaceAll getImportRegex post 0)).
Proof.
  intros Hwf. induction 1 as [|x pre Hx _ IH].
  - cbn [app]. pose proof (matchAtHead_directive sp o path c sp' post Hwf) as Hm.
    rewrite length_directive in Hm.
    replace (8 + length sp + 1 + length path + 1 + length sp' + 1)
      with (S (8 + length sp + 1 + length path + 1 + length sp')) in Hm by lia.
    rewrite (replaceAll_match _ _ _ _ Hm).
    replace (S (8 + length sp + 1 + length path + 1 + length sp'))
      with (length (directive sp o path c sp')) by (rewrite length_directive; lia).
    by rewrite drop_app_length.
  - cbn [app]. rewrite replaceAll_no_match.
    + by rewrite IH.
    + apply matchAtHead_not_hash. cbn. congruence.
Qed.

Lemma replaceAll_directive pre sp o path c sp' post :
  wellFormed sp o path c sp' ->
  forall k, k <= length pre ->
  exists left gs,
    replaceAll getImportRegex (pre ++ directive sp o path c sp' ++ post) k
    = (left ++ fst (replaceAll getImportRegex post 0),
       gs ++ [path] :: snd (replaceAll getImportRegex post 0))
    /\ left `sublist_of` pre.
Proof.
  intros Hwf. induction pre as [|x pre IH]; intros k Hk.
  - exists [], []. split; [|done]. replace k with 0 by (cbn in Hk; lia).
    apply (replaceAll_directive_first []); [done|constructor].
  - cbn [length] in Hk. destruct k as [|k].
    + cbn [app replaceAll].
      destruct (matchAtHead getImportRegex (x :: pre ++ directive sp o path c sp' ++ post))
        as [[[|n] g]|] eqn:E.
      * destruct (IH 0) as (left & gs & -> & Hsub); [lia|].
        exists (x :: left), (g :: gs). split; [done|]. by apply sublist_skip.
      * apply (matchAtHead_before (x :: pre)) in E; [|done|cbn; lia].
        cbn [length] in E.
        destruct (IH n) as (left & gs & -> & Hsub); [lia|].
        exists left, (g :: gs). split; [done|]. by apply sublist_cons.
      * destruct (IH 0) as (left & gs & -> & Hsub); [lia|].
        exists (x :: left), gs. split; [done|]. by apply sublist_skip.
    + cbn [app replaceAll]. destruct (IH k) as (left & gs & -> & Hsub); [lia|].
      exists left, gs. split; [done|]. by apply sublist_cons.
Qed.

Lemma forEachReplace_lookup r ps k m :
  ps !! k = Some m ->
  fst (forEachReplace r ps) !! k
  = Some (mkPiece (start m) (fst (replaceAll r (content m) 0))).
Proof.
  revert k. induction ps as [|p ps IH]; intros k H; [done|].
  cbn [forEachReplace]. destruct (replaceAll r (content p) 0) as [out gs] eqn:R.
  destruct (forEachReplace r ps) as [ps' gs']. cbn [fst] in *.
  destruct k as [|k].
  - injection H as <-. by rewrite R.
  - by apply IH.
Qed.

Lemma forEachReplace_records r ps m g :
  m ∈ ps -> g ∈ snd (replaceAll r (content m) 0) -> g ∈ snd (forEachReplace r ps).
Proof.
  induction ps as [|p ps IH]; intros Hm Hg; [by apply elem_of_nil in Hm|].
  cbn [forEachReplace]. destruct (replaceAll r (content p) 0) as [out gs] eqn:R.
  destruct (forEachReplace r ps) as [ps' gs']. cbn [snd] in *.
  apply elem_of_app. apply elem_of_cons in Hm as [-> |Hm].
  - left. by rewrite R in Hg.
  - right. by apply IH.
Qed.

Lemma NoDup_single_entry (l : list (str)) x :
  NoDup l -> x ∈ l ->
  exists j, l !! j = Some x /\ forall j', l !! j' = Some x -> j' = j.
Proof.
  intros Hnd [j Hj]%list_elem_of_lookup. exists j. split; [done|].
  intros j' Hj'. by eapply NoDup_lookup.
Qed.

(** C9: extraction over the macro regions records the path of every
    directive that ends its line in a macro region ([#include], white
    space, [<] or a double quote, a non-empty path of the class of the
    pattern, [>] or a double quote, and only white space up to the
    newline), wherever it stands in the region, and deletes the text of
    the directive from the content of the region: what is left is what is
    left of the text before the directive (all of it when no [#] stands
    there) and of the text behind it.  The path is in the dependencies
    once, however many directives name it: the dependencies are the
    non-empty paths of all matches, each once, in the order of their first
    occurrence.  For the macro [#include <foo/bar.h>] and a newline the
    only dependency is [foo/bar.h] and nothing of the directive is left in
    the region; two directives [#include <a.h>] that end their lines give
    the one entry [a.h]. *)
Theorem dependencies_extracted_once :
  (forall s n g,
     matchAtHead getImportRegex s = Some (S n, g) ->
     replaceAll getImportRegex s 0
     = (fst (replaceAll getImportRegex (drop (S n) s) 0),
        g :: snd (replaceAll getImportRegex (drop (S n) s) 0)))
  /\ (forall pre sp o path c sp' post,
        wellFormed sp o path c sp' ->
        exists left gs,
          replaceAll getImportRegex (pre ++ directive sp o path c sp' ++ post) 0
          = (left ++ fst (replaceAll getImportRegex post 0),
             gs ++ [path] :: snd (replaceAll getImportRegex post 0))
          /\ left `sublist_of` pre
          /\ (Forall (fun x => x <> HASH) pre -> left = pre /\ gs = []))
  /\ (forall text item,
        partition text = Done item ->
        exists st, scan text = Done st
          /\ macros item = fst (forEachReplace getImportRegex (s_macros st))
          /\ dependencies item
             = filter (fun d => notEmpty d = true)
                 (setOf (map (group 1)
                    (snd (forEachReplace getImportRegex (s_macros st)))))
          /\ NoDup (dependencies item)
          /\ (forall d, d ∈ dependencies item <->
                d <> [] /\ d ∈ map (group 1)
                             (snd (forEachReplace getImportRegex (s_macros st))))
          /\ forall k m pre sp o path c sp' post,
               s_macros st !! k = Some m ->
               content m = pre ++ directive sp o path c sp' ++ post ->
               wellFormed sp o path c sp' ->
               (exists j, dependencies item !! j = Some path
                  /\ forall j', dependencies item !! j' = Some path -> j' = j)
               /\ exists left,
                    macros item !! k
                    = Some (mkPiece (start m)
                              (left ++ fst (replaceAll getImportRegex post 0)))
                    /\ left `sublist_of` pre
                    /\ (Forall (fun x => x <> HASH) pre -> left = pre))
  /\ (forall x l, setOf (x :: l) = x :: setOf (filter (fun y => y <> x) l))
  /\ (let text := txt "#include <foo/bar.h>" ++ [NL] in
      matchMacro text 0 = mkPiece 0 text
      /\ replaceAll getImportRegex text 0 = ([], [[txt "foo/bar.h"]])
      /\ exists item, partition text = Done item
           /\ dependencies item = [txt "foo/bar.h"]
           /\ macros item = [mkPiece 0 []])
  /\ (let text := txt "#include <a.h>" ++ [NL] ++ txt "int x;" ++ [NL]
                  ++ txt "  #include <a.h>" ++ [NL] in
      exists item, partition text = Done item
        /\ dependencies item = [txt "a.h"]).
Proof.
  assert (Hdir : forall pre sp o path c sp' post,
    wellFormed sp o path c sp' ->
    exists left gs,
      replaceAll getImportRegex (pre ++ directive sp o path c sp' ++ post) 0
      = (left ++ fst (replaceAll getImportRegex post 0),
         gs ++ [path] :: snd (replaceAll getImportRegex post 0))
      /\ left `sublist_of` pre
      /\ (Forall (fun x => x <> HASH) pre -> left = pre /\ gs = [])).
  { intros pre sp o path c sp' post Hwf.
    destruct (replaceAll_directive pre sp o path c sp' post Hwf 0)
      as (left & gs & Hr & Hsub); [lia|].
    exists left, gs. split; [done|]. split; [done|]. intros Hpre.
    rewrite (replaceAll_directive_first pre sp o path c sp' post Hwf Hpre) in Hr.
    injection Hr as Hl Hg. apply app_inv_tail in Hl.
    split; [done|]. destruct gs as [|g gs]; [done|]. 
    apply (f_equal length) in Hg. rewrite length_app in Hg. cbn [length] in Hg. lia. }
  split; [|split; [exact Hdir|split; [|split; [|split]]]].
  - intros s n g. apply replaceAll_match.
  - intros text item H. apply partition_done in H as (st & Hs & ->).
    exists st. split; [done|]. split; [apply assemble_macros|].
    rewrite assemble_dependencies. split; [done|].
    assert (Hnd : NoDup (filter (fun d => notEmpty d = true)
              (setOf (map (group 1)
                 (snd (forEachReplace getImportRegex (s_macros st)))))))
      by apply NoDup_filter, setOf_NoDup.
    assert (Hin : forall d,
      d ∈ filter (fun d => notEmpty d = true)
            (setOf (map (group 1) (snd (forEachReplace getImportRegex (s_macros st)))))
      <-> d <> [] /\ d ∈ map (group 1)
                        (snd (forEachReplace getImportRegex (s_macros st)))).
    { intros d. rewrite list_elem_of_filter, setOf_elem_of.
      unfold notEmpty. rewrite Nat.ltb_lt. destruct d as [|x d]; simpl.
      - split; [intros [H _]; lia|intros [H _]; done].
      - split; (intros [_ H]; split; [done || lia|done]). }
    split; [done|]. split; [done|].
    intros k m pre sp o path c sp' post Hk Hc Hwf.
    destruct (Hdir pre sp o path c sp' post Hwf) as (left & gs & Hr & Hsub & Hpre).
    rewrite <- Hc in Hr. split.
    + apply NoDup_single_entry; [done|]. apply Hin. split; [apply Hwf|].
      apply (list_elem_of_fmap_2 (group 1) _ [path]).
      apply (forEachReplace_records _ _ m); [by eapply list_elem_of_lookup_2|].
      rewrite Hr. cbn [snd]. apply elem_of_app. right. by left.
    + exists left. rewrite assemble_macros, (forEachReplace_lookup _ _ _ _ Hk), Hr.
      split; [done|]. split; [done|]. intros Hp. by apply Hpre.
  - apply setOf_cons.
  - split; [reflexivity|]. split; [vm_compute; reflexivity|].
    eexists. split; [vm_compute; reflexivity|]. split; reflexivity.
  - eexists. split; [vm_compute; reflexivity|]. reflexivity.
Qed.

Lemma dependencies_extracted_once_witness :
  let text := txt "  #include <a.h> " ++ [NL] ++ txt "int x;" ++ [NL]
              ++ txt "#include <a.h>" ++ [NL] in
  let item := match partition text with
              | Done item => item
              | _ => assemble emptyScan
              end in
  let st := match scan text with Done st => st | _ => emptyScan end in
  let m := mkPiece 0 (txt "  #include <a.h> " ++ [NL]) in
  partition text = Done item
  /\ s_macros st !! 0 = Some m
  /\ content m = txt "  " ++ directive [SPACE] (chr "<") (txt "a.h") (chr ">") [SPACE] ++ []
  /\ wellFormed [SPACE] (chr "<") (txt "a.h") (chr ">") [SPACE]
  /\ dependencies item = [txt "a.h"]
  /\ macros item = [mkPiece 0 (txt "  "); mkPiece 25 []]
  /\ (exists j, dependencies item !! j = Some (txt "a.h")
        /\ forall j', dependencies item !! j' = Some (txt "a.h") -> j' = j)
  /\ exists left,
       macros item !! 0
       = Some (mkPiece (start m) (left ++ fst (replaceAll getImportRegex [] 0)))
       /\ left `sublist_of` txt "  "
       /\ (Forall (fun x => x <> HASH) (txt "  ") -> left = txt "  ").
Proof.
  intros text item st m.
  assert (H : partition text = Done item) by (vm_compute; reflexivity).
  assert (Hk : s_macros st !! 0 = Some m) by (vm_compute; reflexivity).
  assert (Hc : content m
               = txt "  " ++ directive [SPACE] (chr "<") (txt "a.h") (chr ">") [SPACE]
                 ++ []) by reflexivity.
  assert (Hwf : wellFormed [SPACE] (chr "<") (txt "a.h") (chr ">") [SPACE]).
  { split; [repeat constructor|]. split; [reflexivity|]. split; [discriminate|].
    split; [repeat constructor|]. split; [reflexivity|].
    repeat constructor. discriminate. }
  split; [exact H|]. split; [exact Hk|]. split; [exact Hc|]. split; [exact Hwf|].
  split; [vm_compute; reflexivity|]. split; [vm_compute; reflexivity|].
  destruct (proj1 (proj2 (proj2 dependencies_extracted_once)) text item H)
    as (st' & Hs & _ & _ & _ & _ & Hall).
  assert (Hst : st' = st).
  { assert (Hs' : scan text = Done st) by (vm_compute; reflexivity).
    rewrite Hs in Hs'. by injection Hs'. }
  subst st'.
  exact (Hall 0 m (txt "  ") [SPACE] (chr "<") (txt "a.h") (chr ">") [SPACE] []
           Hk Hc Hwf).
Defined.

(** C9, as the claim has it, fails for directives that do not end their
    line: the pattern asks for white space only between the closing mark
    and a newline.  Two identical directives [#include <a.h>], each with a
    line comment behind it, give no dependency and stay in their regions;
    so does a directive on a last line without a newline. *)
Lemma directive_before_comment_not_recorded :
  (let text := txt "#include <a.h> // x" ++ [NL] ++ txt "#include <a.h> // x" ++ [NL] in
   exists item, partition text = Done item
     /\ dependencies item = []
     /\ dependencies item <> [txt "a.h"]
     /\ macros item = [mkPiece 0 (txt "#include <a.h> // x" ++ [NL]);
                       mkPiece 20 (txt "#include <a.h> // x" ++ [NL])])
  /\ (let text := txt "#include <foo/bar.h>" in
      exists item, partition text = Done item
        /\ dependencies item = []
        /\ macros item = [mkPiece 0 text]).
Proof.
  split.
  - eexists. split; [vm_compute; reflexivity|]. split; [reflexivity|].
    split; [discriminate|reflexivity].
  - eexists. split; [vm_compute; reflexivity|]. split; reflexivity.
Qed.

(** ** Macro continuation *)

Lemma matchMacro_start_not_newline text i :
  text !! i = Some HASH -> text !! start (matchMacro text i) <> Some NL.
Proof.
  intros Hi. cbn [matchMacro start].
  pose proof (keepLeftBlank_le text i) as Hle.
  destruct (decide (keepLeftBlank text i = i)) as [->|Hne].
  - by rewrite Hi.
  - apply blank_not_newline, (keepLeftBlank_blank text i). lia.
Qed.

Lemma matchMacro_crossing text i n :
  text !! i = Some HASH ->
  crossesLine text (matchMacro text i) n ->
  continuedAt false text (start (matchMacro text i)) n.
Proof.
  intros Hi (Hlo & Hhi & Hnl).
  pose proof (matchMacro_start_not_newline text i Hi) as Hs0.
  destruct (matchMacro_spec text i Hi) as (k & Hle & Hs & Hc & Hk & Hik & _ & Hcross & _).
  cbn zeta in *. unfold pieceEnd in Hhi. rewrite Hc, length_take, length_drop in Hhi.
  set (s := keepLeftBlank text i) in *. rewrite Hs in *.
  assert (n <> s) by (intros ->; done).
  destruct (Hcross (n - S s)) as (b & Hb & Hbs & Hsp); [lia| |].
  { rewrite lookup_drop. by replace (S s + (n - S s)) with n by lia. }
  rewrite lookup_drop in Hbs.
  exists (S s + b). split; [lia|]. split; [done|]. split; [done|].
  intros j Hj. specialize (Hsp (j - S s)). rewrite lookup_drop in Hsp.
  replace (S s + (j - S s)) with j in Hsp by lia. apply Hsp. lia.
Qed.

Lemma matchMacro_absorbs text i b j :
  text !! i = Some HASH ->
  start (matchMacro text i) < b < pieceEnd (matchMacro text i) ->
  text !! b = Some BACKSLASH ->
  b < j < length text ->
  (forall m, b < m < j -> test isSpace (text !! m) = true) ->
  j < pieceEnd (matchMacro text i).
Proof.
  intros Hi Hb Hbs Hj Hrun.
  destruct (matchMacro_spec text i Hi) as (k & Hle & Hs & Hc & Hk & Hik & Hend & _ & Hcont).
  cbn zeta in *. unfold pieceEnd in *. rewrite Hc, length_take, length_drop in *.
  set (s := keepLeftBlank text i) in *. rewrite Hs in *.
  rewrite ?length_drop in Hk, Hend, Hcont.
  assert (Hbk : b - S s < k).
  { destruct (decide (b - S s < k)) as [|Hn]; [done|]. exfalso.
    assert (Hkb : k = b - S s) by lia.
    assert (Hnl : drop (S s) text !! k = Some NL) by (apply Hend; lia).
    rewrite lookup_drop, Hkb in Hnl.
    replace (S s + (b - S s)) with b in Hnl by lia.
    rewrite Hbs in Hnl. cbv in Hnl. discriminate Hnl. }
  assert (j - S s < k); [|lia].
  apply (Hcont (b - S s)); [done| |lia|].
  - rewrite lookup_drop. by replace (S s + (b - S s)) with b by lia.
  - intros m Hm. rewrite lookup_drop. apply Hrun. lia.
Qed.

(** C5 (as amended): the macro matcher carries a macro over the end of a
    line only where the newline lies in a run of white space that follows
    a backslash (the backslash need not be followed by the newline at
    once: blanks may come between); and behind every backslash of the
    region the run of white space that follows, newlines included, and the
    first character behind that run belong to the region, so a backslash
    followed at once by a newline always carries the macro over that
    newline.  For [#define X 1], a backslash, a newline, two spaces,
    [+ 2] and a newline, the region is the whole text. *)
Theorem macro_continues_after_backslash :
  (forall text i,
     text !! i = Some HASH ->
     let R := matchMacro text i in
     (forall n, crossesLine text R n -> continuedAt false text (start R) n)
     /\ (forall b j,
           start R < b < pieceEnd R -> text !! b = Some BACKSLASH ->
           b < j < length text ->
           (forall m, b < m < j -> test isSpace (text !! m) = true) ->
           j < pieceEnd R)
     /\ (forall b,
           start R < b < pieceEnd R -> text !! b = Some BACKSLASH ->
           text !! (S b) = Some NL -> S (S b) < length text ->
           crossesLine text R (S b)))
  /\ (let text := txt "#define X 1\" ++ [NL] ++ txt "  + 2" ++ [NL] in
      matchMacro text 0 = mkPiece 0 text
      /\ crossesLine text (matchMacro text 0) 12
      /\ last text = Some NL
      /\ exists item, partition text = Done item
           /\ macros item = [mkPiece 0 text]).
Proof.
  split.
  - intros text i Hi R. split; [|split].
    + intros n. by apply matchMacro_crossing.
    + intros b j. by apply matchMacro_absorbs.
    + intros b Hb Hbs Hnl Hlen. split; [lia|]. split; [|done].
      apply (matchMacro_absorbs text i b (S (S b))); try done; [lia|].
      intros m Hm. replace m with (S b) by lia. by rewrite Hnl.
  - split; [reflexivity|]. split; [|split; [reflexivity|]].
    + split; [cbn; lia|]. split; [vm_compute; lia|reflexivity].
    + eexists. split; [vm_compute; reflexivity|]. reflexivity.
Qed.

Lemma macro_continues_after_backslash_witness :
  let text := txt "#a\ " ++ [NL] ++ txt "b" ++ [NL] in
  let R := matchMacro text 0 in
  text !! 0 = Some HASH
  /\ crossesLine text R 4
  /\ continuedAt false text (start R) 4
  /\ (start R < 2 < pieceEnd R /\ text !! 2 = Some BACKSLASH
      /\ 2 < 5 < length text
      /\ (forall m, 2 < m < 5 -> test isSpace (text !! m) = true)
      /\ 5 < pieceEnd R)
  /\ (let text' := txt "#a\" ++ [NL] ++ txt "b" in
      let R' := matchMacro text' 0 in
      text' !! 0 = Some HASH /\ start R' < 2 < pieceEnd R'
      /\ text' !! 2 = Some BACKSLASH /\ text' !! 3 = Some NL
      /\ 4 < length text' /\ crossesLine text' R' 3).
Proof.
  intros text R.
  assert (H0 : text !! 0 = Some HASH) by reflexivity.
  assert (H1 : crossesLine text R 4).
  { split; [cbn; lia|]. split; [vm_compute; lia|reflexivity]. }
  assert (H2 : start R < 2 < pieceEnd R) by (vm_compute; lia).
  assert (H3 : text !! 2 = Some BACKSLASH) by reflexivity.
  assert (H4 : 2 < 5 < length text) by (vm_compute; lia).
  assert (H5 : forall m, 2 < m < 5 -> test isSpace (text !! m) = true).
  { intros m Hm. assert (m = 3 \/ m = 4) as [-> | ->] by lia; reflexivity. }
  split; [exact H0|]. split; [exact H1|].
  split; [exact (proj1 (proj1 macro_continues_after_backslash text 0 H0) 4 H1)|].
  split.
  { split; [exact H2|]. split; [exact H3|]. split; [exact H4|]. split; [exact H5|].
    exact (proj1 (proj2 (proj1 macro_continues_after_backslash text 0 H0))
             2 5 H2 H3 H4 H5). }
  intros text' R'.
  assert (G0 : text' !! 0 = Some HASH) by reflexivity.
  assert (G1 : start R' < 2 < pieceEnd R') by (vm_compute; lia).
  assert (G2 : text' !! 2 = Some BACKSLASH) by reflexivity.
  assert (G3 : text' !! 3 = Some NL) by reflexivity.
  assert (G4 : 4 < length text') by (vm_compute; lia).
  split; [exact G0|]. split; [exact G1|]. split; [exact G2|]. split; [exact G3|].
  split; [exact G4|].
  exact (proj2 (proj2 (proj1 macro_continues_after_backslash text' 0 G0))
           2 G1 G2 G3 G4).
Defined.

(** C5, as the claim has it, fails: in [#a], a backslash, a space, a
    newline, [b] and a newline the macro goes on behind the first newline,
    and no backslash of the text is followed by a newline at once. *)
Lemma macro_continues_without_backslash_newline :
  let text := txt "#a\ " ++ [NL] ++ txt "b" ++ [NL] in
  text !! 0 = Some HASH
  /\ matchMacro text 0 = mkPiece 0 text
  /\ crossesLine text (matchMacro text 0) 4
  /\ ~ continuedAt true text (start (matchMacro text 0)) 4.
Proof.
  intros text. split; [reflexivity|]. split; [reflexivity|]. split.
  - split; [cbn; lia|]. split; [vm_compute; lia|reflexivity].
  - intros (b & Hb & Hbs & Hnl & _). specialize (Hnl eq_refl).
    destruct b as [|[|[|[|b]]]]; try (cbn in Hb; lia); cbv in Hbs, Hnl; discriminate.
Qed.

(** ** Extraction over macro regions *)

Lemma matchMacro_shaped text i :
  text !! i = Some HASH -> macroShaped (content (matchMacro text i)).
Proof.
  intros Hi p Hp Hnl.
  destruct (matchMacro_end text i Hi) as (Hs & He & Hc).
  set (R := matchMacro text i) in *.
  assert (Hlook : forall j, j < length (content R) ->
                    content R !! j = text !! (start R + j)).
  { intros j Hj. rewrite Hc. apply lookup_slice. unfold pieceEnd. lia. }
  assert (Hcr : crossesLine text R (start R + p)).
  { split; [lia|]. split; [unfold pieceEnd; lia|]. rewrite <- Hlook by lia. done. }
  destruct (matchMacro_crossing text i (start R + p) Hi Hcr) as (b & Hb & Hbs & _ & Hsp).
  change (matchMacro text i) with R in Hb, Hbs, Hsp.
  exists (b - start R). split; [lia|]. split.
  { rewrite Hlook by lia. by replace (start R + (b - start R)) with b by lia. }
  intros j Hj. rewrite Hlook by lia. apply Hsp. lia.
Qed.

Lemma import_ends_macro c : macroShaped c -> endsOnly getImportRegex c.
Proof.
  intros Hc a pre suf Hd Hacc.
  apply import_shape in Hacc as (front & cl & run & -> & Hcl & Hnb & Hrun).
  destruct suf as [|x suf]; [done|]. exfalso.
  assert (Hflat : (front ++ cl :: run ++ [NL]) ++ x :: suf
                  = front ++ cl :: run ++ NL :: x :: suf).
  { rewrite <- app_assoc. cbn [app]. by rewrite <- app_assoc. }
  rewrite Hflat in Hd. clear Hflat.
  assert (Hlook : forall j, c !! (a + j)
            = (front ++ cl :: run ++ NL :: x :: suf) !! j).
  { intros j. by rewrite <- Hd, lookup_drop. }
  assert (Hlen : a + (length front + S (length run + S (S (length suf))))
                 = length c).
  { assert (a <= length c).
    { destruct (decide (a <= length c)); [done|].
      rewrite drop_ge in Hd by lia. by destruct front. }
    apply (f_equal length) in Hd. rewrite length_drop in Hd.
    rewrite length_app in Hd. cbn [length] in Hd. rewrite length_app in Hd.
    cbn [length] in Hd. lia. }
  set (q := length front) in *. set (n := length run) in *.
  assert (Hq : c !! (a + q) = Some cl).
  { rewrite Hlook, lookup_app_r by done. by rewrite Nat.sub_diag. }
  assert (Hr : forall j, q < j <= q + n -> test isSpace (c !! (a + j)) = true).
  { intros j Hj. rewrite Hlook, lookup_app_r by (fold q; lia).
    fold q. rewrite lookup_cons_ne_0 by lia.
    replace (Nat.pred (j - q)) with (j - S q) by lia.
    rewrite lookup_app_l by (fold n; lia).
    destruct (run !! (j - S q)) as [w|] eqn:Hw.
    - simpl. eapply Forall_lookup_1 in Hrun; [|exact Hw]. done.
    - apply lookup_ge_None in Hw. fold n in Hw. lia. }
  assert (Hnl : c !! (a + (q + S n)) = Some NL).
  { rewrite Hlook, lookup_app_r by (fold q; lia).
    fold q. rewrite lookup_cons_ne_0 by lia.
    replace (Nat.pred (q + S n - q)) with n by lia.
    rewrite lookup_app_r by (fold n; lia). fold n.
    by rewrite Nat.sub_diag. }
  destruct (Hc (a + (q + S n))) as (b & Hb & Hbs & Hsp); [lia|done|].
  destruct (decide (b < a + q)) as [Hlt|Hge].
  - specialize (Hsp (a + q)). rewrite Hq in Hsp. simpl in Hsp.
    rewrite Hcl in Hsp. discriminate Hsp. lia.
  - destruct (decide (b = a + q)) as [->|Hne].
    + rewrite Hq in Hbs. congruence.
    + specialize (Hr (b - a)). replace (a + (b - a)) with b in Hr by lia.
      rewrite Hbs in Hr. discriminate Hr. lia.
Qed.

Lemma endsOnly_tail r x s : endsOnly r (x :: s) -> endsOnly r s.
Proof. intros H a pre suf Hd. by apply (H (S a)). Qed.

Lemma replaceAll_none r s :
  (forall a, matchAtHead r (drop a s) = None) -> stripped r s.
Proof.
  unfold stripped. induction s as [|x s IH]; intros H.
  - cbn [replaceAll]. pose proof (H 0) as H0. cbn [drop] in H0. by rewrite H0.
  - rewrite replaceAll_no_match by apply (H 0).
    rewrite IH; [done|]. intros a. apply (H (S a)).
Qed.

Lemma replaceAll_endsOnly r s :
  endsOnly r s -> matchAtHead r [] = None ->
  exists a, a <= length s /\ fst (replaceAll r s 0) = take a s
    /\ (forall a', a' < a -> matchAtHead r (drop a' s) = None)
    /\ (a < length s -> matchAtHead r (drop a s) <> None).
Proof.
  intros He H0. induction s as [|x s IH].
  - exists 0. cbn [replaceAll]. rewrite H0. split; [done|]. split; [done|].
    split; [intros; lia|simpl; lia].
  - destruct (matchAtHead r (x :: s)) as [[n g]|] eqn:Hm.
    + exists 0. split; [simpl; lia|].
      split; [|split; [intros; lia|cbn [drop]; by rewrite Hm]].
      pose proof Hm as Hm'.
      apply matchAtHead_sound in Hm' as (pre & suf & Hs & -> & Hacc).
      assert (suf = []) as -> by (apply (He 0 pre suf); done).
      rewrite app_nil_r in Hs. subst pre. cbn [length] in Hm.
      rewrite (replaceAll_match _ _ _ _ Hm). cbn [fst drop].
      rewrite drop_all. cbn [replaceAll]. by rewrite H0.
    + destruct IH as (a & Ha & Hf & Hnone & Hn); [by eapply endsOnly_tail|].
      exists (S a). split; [simpl; lia|].
      rewrite replaceAll_no_match by done. cbn [fst take drop length].
      split; [by rewrite Hf|]. split.
      * intros [|a'] Ha'; [done|]. apply Hnone. lia.
      * intros. apply Hn. lia.
Qed.

Lemma replaceAll_endsOnly_stripped r s :
  endsOnly r s -> matchAtHead r [] = None ->
  stripped r (fst (replaceAll r s 0)).
Proof.
  intros He H0.
  destruct (replaceAll_endsOnly r s He H0) as (a & Ha & -> & Hnone & Hm).
  apply replaceAll_none. intros a'.
  destruct (decide (a' < a)) as [Hlt|Hge].
  - destruct (matchAtHead r (drop a' (take a s))) as [[n g]|] eqn:E; [|done].
    exfalso. pose proof E as E'.
    apply matchAtHead_sound in E' as (pre & suf & Hs & -> & Hacc).
    assert (Hd : drop a' s = pre ++ (suf ++ drop a s)).
    { rewrite app_assoc, <- Hs. rewrite <- (take_drop a s) at 1.
      rewrite drop_app_le by (rewrite length_take; lia). done. }
    pose proof (He _ _ _ Hd Hacc) as Hnil.
    apply app_eq_nil in Hnil as [_ Hnil].
    assert (Hall : take a s = s).
    { rewrite <- (take_drop a s) at 2. by rewrite Hnil, app_nil_r. }
    rewrite Hall, (Hnone a' Hlt) in E. done.
  - rewrite drop_ge by (rewrite length_take; lia). done.
Qed.

Lemma matchAt_macros text i st sp st' m :
  matchAt languageConfig text i st = Done (sp, st') ->
  m ∈ s_macros st' ->
  m ∈ s_macros st \/ (text !! i = Some HASH /\ m = matchMacro text i).
Proof.
  intros H Hm. apply matchAt_cases in H
    as [(Hc & _ & ->)|[(q & _ & _ & _ & ->)
       |[(_ & _ & ->)|[(q & _ & _ & _ & ->)|[_ ->]]]]];
    cbn [pushMacro pushLiteral pushComment s_macros] in Hm; try by left.
  apply elem_of_app in Hm as [Hm|Hm]; [by left|].
  apply list_elem_of_singleton in Hm. by right.
Qed.

Lemma loopState_macros text i st :
  loopState text i st ->
  forall m, m ∈ s_macros st -> exists j, text !! j = Some HASH /\ m = matchMacro text j.
Proof.
  induction 1 as [|i st st' Hl IH Hi Hm|i st p st' Hl IH Hi Hm]; intros m Hin.
  - by apply elem_of_nil in Hin.
  - destruct (matchAt_macros _ _ _ _ _ _ Hm Hin) as [?|[? ?]]; eauto.
  - cbn [closeRun pushSource s_macros] in Hin.
    destruct (matchAt_macros _ _ _ _ _ _ Hm Hin) as [?|[? ?]]; eauto.
Qed.

Lemma scan_loopState text st :
  scan text = Done st ->
  exists i st0, loopState text i st0 /\ length text <= i /\
    st = pushSource (mkPiece (s_lastIndex st0) (drop (s_lastIndex st0) text))
           (s_lastIndex st0) st0.
Proof.
  unfold scan, scanWith.
  destruct (scanFrom languageConfig (S (length text)) text 0 emptyScan)
    as [st0| |] eqn:E; cbn [bind]; try done.
  intros [= <-]. apply scanFrom_loopState in E as (i & Hl & Hi); [|constructor].
  eauto.
Qed.

Lemma forEachReplace_fst r ps :
  fst (forEachReplace r ps)
  = map (fun p => mkPiece (start p) (fst (replaceAll r (content p) 0))) ps.
Proof.
  induction ps as [|p ps IH]; [done|]. cbn [forEachReplace map].
  destruct (replaceAll r (content p) 0) as [out gs].
  destruct (forEachReplace r ps) as [ps' gs']. cbn [fst] in *. by rewrite IH.
Qed.

(** ** Idempotence of extraction *)

(** C6 (as amended): extraction is idempotent on macro regions: running
    the include pattern again over the content a macro region is left with
    finds no match and leaves the content as it is.  (Nothing is said of
    the plain-code regions.) *)
Theorem extraction_idempotent_on_macros text item :
  partition text = Done item ->
  forall m, m ∈ macros item -> stripped getImportRegex (content m).
Proof.
  intros H m Hm. apply partition_done in H as (st & Hs & ->).
  rewrite assemble_macros, forEachReplace_fst in Hm.
  apply list_elem_of_fmap in Hm as (p & -> & Hp). cbn [content].
  apply scan_loopState in Hs as (i & st0 & Hl & _ & ->).
  cbn [pushSource s_macros] in Hp.
  destruct (loopState_macros _ _ _ Hl p Hp) as (j & Hj & ->).
  apply replaceAll_endsOnly_stripped; [|reflexivity].
  by apply import_ends_macro, matchMacro_shaped.
Qed.

Lemma extraction_idempotent_on_macros_witness :
  let text := txt "  #include <a.h>" ++ [NL] ++ txt "int x;" in
  let item := match partition text with
              | Done item => item
              | _ => assemble emptyScan
              end in
  partition text = Done item
  /\ macros item = [mkPiece 0 (txt "  ")]
  /\ stripped getImportRegex (txt "  ").
Proof.
  intros text item.
  assert (H : partition text = Done item) by (vm_compute; reflexivity).
  assert (Hm : mkPiece 0 (txt "  ") ∈ macros item).
  { replace (macros item) with [mkPiece 0 (txt "  ")] by (vm_compute; reflexivity).
    apply list_elem_of_singleton. reflexivity. }
  split; [exact H|]. split; [vm_compute; reflexivity|].
  exact (extraction_idempotent_on_macros text item H _ Hm).
Defined.

(** C6, as the claim has it, fails on plain code: taking a match out can
    join the text on its two sides into a new match.  The plain run
    [ususing namespace a;ing namespace b;] is left as
    [using namespace b;], in which the namespace pattern matches; the
    plain run [typetypedef int a;def int b;] is left as [typedef int b;],
    in which the typedef pattern matches. *)
Lemma extraction_not_idempotent_on_sources :
  (let text := txt "ususing namespace a;ing namespace b;" in
   exists item, partition text = Done item
     /\ sources item = [mkPiece 0 (txt "using namespace b;")]
     /\ namespaces item = [txt "a"]
     /\ replaceAll getNamespaceRegex (txt "using namespace b;") 0
        = ([], [[txt "b"]])
     /\ ~ stripped getNamespaceRegex (txt "using namespace b;"))
  /\ (let text := txt "typetypedef int a;def int b;" in
      exists item, partition text = Done item
        /\ sources item = [mkPiece 0 (txt "typedef int b;")]
        /\ typedefs item !! txt "a" = Some (txt "int")
        /\ replaceAll getTypedefRegex (txt "typedef int b;") 0
           = ([], [[txt "int"; txt "b"]])
        /\ ~ stripped getTypedefRegex (txt "typedef int b;")).
Proof.
  split; intros text; (eexists; split; [vm_compute; reflexivity|]).
  - split; [reflexivity|]. split; [reflexivity|].
    split; [vm_compute; reflexivity|]. unfold stripped. vm_compute. discriminate.
  - split; [reflexivity|]. split; [vm_compute; reflexivity|].
    split; [vm_compute; reflexivity|]. unfold stripped. vm_compute. discriminate.
Qed.

(** ** Where the code departs from the claims *)

(** C1: the regions of [/*a*/ /*b*/] overlap.  The first comment takes
    the space behind it, the second the same space before it; laid end to
    end the regions have one character more than the text. *)
Theorem adjacent_block_comments_overlap :
  let text := txt "/*a*/ /*b*/" in
  exists st, scan text = Done st
    /\ s_comments st = [mkPiece 0 (txt "/*a*/ "); mkPiece 5 (txt " /*b*/")]
    /\ s_sources st = [mkPiece 0 []; mkPiece 6 []; mkPiece 11 []]
    /\ s_macros st = [] /\ s_literals st = []
    /\ overlap (mkPiece 0 (txt "/*a*/ ")) (mkPiece 5 (txt " /*b*/"))
    /\ laidOut st = txt "/*a*/  /*b*/"
    /\ laidOut st <> text.
Proof.
  intros text. eexists. split; [vm_compute; reflexivity|].
  repeat (split; [reflexivity|]). split; [|split]; [|reflexivity|discriminate].
  split; cbn; lia.
Qed.

(** C2: [/*/] behind a space is taken for a closed block comment.  The
    opening token stands at offset 1 and no closing token stands behind
    it, yet [partition] returns a result; without the space the same
    comment is fatal.  The search for the closing token starts two
    characters behind the start of the region, which the blanks before
    the comment have moved back. *)
Theorem open_block_comment_behind_blank_accepted :
  let bc := ([SLASH; STAR], [STAR; SLASH]) in
  let text := txt " /*/" in
  startsWith (fst bc) (drop 1 text) = true
  /\ (forall c, ~ closedAt bc text 1 c)
  /\ matchBlockComment text 1 bc = Done (mkPiece 0 text)
  /\ (exists item, partition text = Done item
        /\ comments item = [mkPiece 0 text])
  /\ matchBlockComment (txt "/*/") 0 bc = Fatal UnterminatedBlockComment
  /\ partition (txt "/*/") = Fatal UnterminatedBlockComment.
Proof.
  intros bc text. split; [reflexivity|]. split.
  { intros c [Hc Hs]. cbn in Hc.
    apply startsWith_length in Hs. rewrite length_drop in Hs. cbn in Hs. lia. }
  split; [reflexivity|]. split.
  { eexists. split; [vm_compute; reflexivity|]. reflexivity. }
  split; reflexivity.
Qed.

(** C3: the namespaces are not deduplicated: the same declaration twice
    gives the name twice. *)
Theorem namespaces_keep_duplicates :
  let text := txt "using namespace std;using namespace std;" in
  exists item, partition text = Done item
    /\ namespaces item = [txt "std"; txt "std"]
    /\ ~ NoDup (namespaces item).
Proof.
  intros text. eexists. split; [vm_compute; reflexivity|].
  split; [reflexivity|]. intros H. apply NoDup_cons in H as [H _].
  apply H, list_elem_of_singleton. reflexivity.
Qed.

(** C4: the macros are not filtered: a macro region that is an include
    directive and nothing else stays in the result with empty content. *)
Theorem emptied_macro_kept :
  let text := txt "#include <a.h>" ++ [NL] in
  exists item, partition text = Done item
    /\ macros item = [mkPiece 0 []]
    /\ dependencies item = [txt "a.h"]
    /\ exists m, m ∈ macros item /\ content m = [].
Proof.
  intros text. eexists. split; [vm_compute; reflexivity|].
  split; [reflexivity|]. split; [reflexivity|].
  exists (mkPiece 0 []). split; [|reflexivity]. apply list_elem_of_singleton. reflexivity.
Qed.

(** * Further properties

    What follows holds of every text: how the matchers end their regions,
    how the regions of a scan lie in the text, when the scan fails, and
    what the three patterns hand to their callbacks. *)

(** ** The ends of line comments and macros *)

(** X3: a line comment found at offset [i] starts there (no blanks before
    it are taken) and runs up to the next newline, which is left out of
    it, or to the end of the text when no newline follows: the region
    holds no newline behind its mark, and what follows the region is a
    newline or nothing. *)
Theorem line_comment_stops_before_newline text i lc :
  i < length text -> startsWith lc (drop i text) = true ->
  let p := matchLineComment text i lc in
  start p = i /\ i + length lc <= pieceEnd p <= length text
  /\ content p = slice text i (pieceEnd p)
  /\ (forall j, i + length lc <= j < pieceEnd p -> text !! j <> Some NL)
  /\ (pieceEnd p = length text \/ text !! pieceEnd p = Some NL).
Proof.
  intros Hi Hs. cbv zeta.
  destruct (matchLineComment_spec text i lc Hi Hs) as (Hst & He & Hc & _).
  split; [done|]. split; [done|]. split; [done|].
  apply startsWith_length in Hs. rewrite length_drop in Hs.
  destruct (advanceWhile_spec (fun r => negb (charIs isNewline r))
              (drop (i + length lc) text) (i + length lc))
    as (k & Hk & Hkl & Hrun & Hstop).
  rewrite length_drop in Hkl, Hstop.
  assert (Hend : pieceEnd (matchLineComment text i lc) = i + length lc + k).
  { unfold matchLineComment. rewrite Hk. unfold pieceEnd. cbn [start content].
    rewrite length_slice. lia. }
  rewrite Hend. split.
  - intros j Hj Hnl. specialize (Hrun (j - (i + length lc))).
    rewrite charIs_drop in Hrun.
    replace (i + length lc + (j - (i + length lc))) with j in Hrun by lia.
    rewrite Hnl in Hrun. discriminate Hrun. lia.
  - destruct (decide (k < length text - (i + length lc))) as [Hlt|Hge];
      [right|left; lia].
    specialize (Hstop Hlt). rewrite charIs_drop in Hstop.
    destruct (text !! (i + length lc + k)) as [x|] eqn:Hx; [|done].
    simpl in Hstop. apply negb_false_iff, N.eqb_eq in Hstop. by subst.
Qed.

Lemma line_comment_stops_before_newline_witness :
  let text := txt "x//c" ++ [NL] ++ txt "y" in
  let p := matchLineComment text 1 [SLASH; SLASH] in
  1 < length text /\ startsWith [SLASH; SLASH] (drop 1 text) = true
  /\ start p = 1
  /\ (forall j, 1 + 2 <= j < pieceEnd p -> text !! j <> Some NL)
  /\ (pieceEnd p = length text \/ text !! pieceEnd p = Some NL).
Proof.
  intros text p.
  assert (H1 : 1 < length text) by (vm_compute; lia).
  assert (H2 : startsWith [SLASH; SLASH] (drop 1 text) = true) by reflexivity.
  split; [exact H1|]. split; [exact H2|].
  pose proof (line_comment_stops_before_newline text 1 [SLASH; SLASH] H1 H2) as H.
  split; [exact (proj1 H)|]. exact (proj2 (proj2 (proj2 H))).
Defined.

(** X1: a macro region ends with a newline, which it includes, or at the
    end of the text; and a macro region without a backslash behind its
    first character is one line: no newline stands in it before its last
    character. *)
Theorem macro_ends_with_the_line text i :
  text !! i = Some HASH ->
  let R := matchMacro text i in
  (pieceEnd R = length text \/ text !! (pieceEnd R - 1) = Some NL)
  /\ ((forall j, start R < j < pieceEnd R -> text !! j <> Some BACKSLASH) ->
      forall j, start R <= j -> S j < pieceEnd R -> text !! j <> Some NL).
Proof.
  intros Hi R. split.
  - destruct (matchMacro_spec text i Hi) as (k & Hle & Hs & Hc & Hk & Hik & Hend & _).
    cbn zeta in *. unfold pieceEnd. fold R in Hs, Hc. rewrite Hs, Hc.
    rewrite length_take, !length_drop in *.
    pose proof (lookup_lt_Some _ _ _ Hi).
    destruct (decide (k < length text - S (keepLeftBlank text i))) as [Hlt|Hge]; [right|left; lia].
    specialize (Hend Hlt). rewrite lookup_drop in Hend. rewrite <- Hend. f_equal. lia.
  - intros Hno j Hj Hj' Hnl.
    destruct (matchMacro_crossing text i j Hi) as (b & Hb & Hbs & _); [done|].
    apply (Hno b); [|done]. fold R in Hb. lia.
Qed.

Lemma macro_ends_with_the_line_witness :
  let text := txt " #a b" ++ [NL] ++ txt "c" in
  let R := matchMacro text 1 in
  text !! 1 = Some HASH
  /\ (pieceEnd R = length text \/ text !! (pieceEnd R - 1) = Some NL).
Proof.
  intros text R.
  assert (H : text !! 1 = Some HASH) by reflexivity.
  split; [exact H|]. exact (proj1 (macro_ends_with_the_line text 1 H)).
Defined.

(** ** When the literal and block-comment matchers fail *)

(** X2: the literal matcher fails exactly when every later occurrence of
    the opening quote is escaped (in particular when there is none), and
    its failure is never the one of the block-comment matcher. *)
Theorem literal_fatal_iff_no_unescaped_quote text i q :
  text !! i = Some q -> q <> BACKSLASH ->
  (matchLiteral text i = Fatal UnterminatedLiteral <->
   forall j, drop (S i) text !! j = Some q -> escaped (drop (S i) text) j = true)
  /\ matchLiteral text i <> Fatal UnterminatedBlockComment.
Proof.
  intros Hi Hq.
  destruct (matchLiteral_unescaped text i q Hi Hq)
    as [(k & Hd & Hk & He & _)|[Hf Hall]]; cbn zeta in *.
  - rewrite Hd. split; [|done]. split; [done|]. intros Hall.
    rewrite (Hall k Hk) in He. discriminate He.
  - rewrite Hf. split; [|done]. split; done.
Qed.

Lemma literal_fatal_iff_no_unescaped_quote_witness :
  let text := txt "'a\'" in
  text !! 0 = Some SQUOTE /\ SQUOTE <> BACKSLASH
  /\ matchLiteral text 0 = Fatal UnterminatedLiteral
  /\ forall j, drop 1 text !! j = Some SQUOTE -> escaped (drop 1 text) j = true.
Proof.
  intros text.
  assert (H : text !! 0 = Some SQUOTE) by reflexivity.
  assert (Hq : SQUOTE <> BACKSLASH) by discriminate.
  assert (Hf : matchLiteral text 0 = Fatal UnterminatedLiteral) by reflexivity.
  split; [exact H|]. split; [exact Hq|]. split; [exact Hf|].
  exact (proj1 (proj1 (literal_fatal_iff_no_unescaped_quote text 0 SQUOTE H Hq)) Hf).
Defined.

(** X4: the block-comment matcher fails exactly when no closing token
    starts at an offset of the text from the end of the opening token on,
    counted from the start of the region (the blanks before the opening
    token included); its failure is never the one of the literal
    matcher. *)
Theorem blockComment_fatal_iff_no_closing_token text i bc :
  (matchBlockComment text i bc = Fatal UnterminatedBlockComment <->
   forall c, keepLeftBlank text i + length (fst bc) <= c < length text ->
             startsWith (snd bc) (drop c text) = false)
  /\ matchBlockComment text i bc <> Fatal UnterminatedLiteral.
Proof.
  split.
  - rewrite matchBlockComment_fatal. tauto.
  - intros H. apply matchBlockComment_fatal in H as [H _]. discriminate H.
Qed.

(** ** The regions of a scan lie in the text *)

Lemma slice_inPlace (text : str) a b :
  a <= length text -> inPlace text (mkPiece a (slice text a b)).
Proof.
  intros Ha. unfold inPlace, pieceEnd. cbn [start content].
  rewrite length_slice. split; [lia|]. unfold slice.
  destruct (decide (b <= length text)); [f_equal; lia|].
  rewrite !take_ge by (rewrite length_drop; lia). done.
Qed.

Lemma drop_inPlace (text : str) a :
  a <= length text -> inPlace text (mkPiece a (drop a text)).
Proof.
  intros Ha. unfold inPlace, pieceEnd. cbn [start content].
  rewrite length_drop. split; [lia|]. unfold slice.
  rewrite take_ge; [done|]. rewrite length_drop. lia.
Qed.

Lemma matchAt_inPlace text i st p st' :
  i < length text ->
  matchAt languageConfig text i st = Done (Some p, st') -> inPlace text p.
Proof.
  intros Hi H. pose proof (matchAt_progress _ _ _ _ _ Hi H) as (Hs & He).
  split; [lia|].
  apply matchAt_cases in H
    as [(Hc & [= ->] & _)|[(q & _ & Hl & [= ->] & _)
       |[(Hsw & [= ->] & _)|[(q & Hsw & Hb & [= ->] & _)|[? _]]]]]; [..|done].
  - apply matchMacro_end in Hc. tauto.
  - apply matchLiteral_spec in Hl as (e & He' & _ & -> & Hend). by rewrite Hend.
  - destruct (matchLineComment_spec text i [SLASH; SLASH] Hi Hsw) as (Hst & _ & Hc & _).
    by rewrite Hst.
  - apply matchBlockComment_spec in Hb. destruct Hb as (c & h & H). tauto.
Qed.

(** How one round changes the lists. *)
Lemma matchAt_regions text i st p st' q :
  matchAt languageConfig text i st = Done (Some p, st') ->
  q ∈ regions st' <-> q ∈ regions st \/ q = p.
Proof.
  intros H. apply matchAt_cases in H
    as [(_ & [= <-] & ->)|[(p0 & _ & _ & [= <-] & ->)
       |[(_ & [= <-] & ->)|[(p0 & _ & _ & [= <-] & ->)|[? _]]]]]; [..|done];
    unfold regions; cbn [pushMacro pushLiteral pushComment s_macros s_literals
                           s_comments s_sources];
    rewrite ?elem_of_app, ?list_elem_of_singleton; tauto.
Qed.

Lemma matchAt_none_state text i st st' :
  matchAt languageConfig text i st = Done (None, st') -> st' = st.
Proof.
  intros H. apply matchAt_cases in H
    as [(_ & [=] & _)|[(q & _ & _ & [=] & _)
       |[(_ & [=] & _)|[(q & _ & _ & [=] & _)|[_ ->]]]]]. done.
Qed.

Lemma matchAt_lastIndex text i st sp st' :
  matchAt languageConfig text i st = Done (sp, st') -> s_lastIndex st' = s_lastIndex st.
Proof.
  intros H. apply matchAt_cases in H
    as [(_ & _ & ->)|[(q & _ & _ & _ & ->)
       |[(_ & _ & ->)|[(q & _ & _ & _ & ->)|[_ ->]]]]]; done.
Qed.

Lemma closeRun_regions text p st q :
  q ∈ regions (closeRun text p st) <->
  q ∈ regions st \/ q = mkPiece (s_lastIndex st) (slice text (s_lastIndex st) (start p)).
Proof.
  unfold regions, closeRun. cbn [pushSource s_macros s_literals s_comments s_sources].
  rewrite ?elem_of_app, ?list_elem_of_singleton. tauto.
Qed.

Lemma loopState_lastIndex_le text i st :
  loopState text i st -> s_lastIndex st <= length text.
Proof.
  induction 1 as [|i st st' Hl IH Hi Hm|i st p st' Hl IH Hi Hm].
  - simpl. lia.
  - by rewrite (matchAt_none_state _ _ _ _ Hm).
  - pose proof (matchAt_progress _ _ _ _ _ Hi Hm) as (_ & He).
    cbn [closeRun pushSource s_lastIndex]. unfold pieceEnd in He. lia.
Qed.

(** A property of the pieces that every round keeps holds of all pieces. *)
Lemma loopState_pieces (P : SourcePiece -> Prop) text :
  (forall i st p st',
     loopState text i st -> i < length text ->
     matchAt languageConfig text i st = Done (Some p, st') ->
     P p /\ P (mkPiece (s_lastIndex st) (slice text (s_lastIndex st) (start p)))) ->
  forall i st, loopState text i st -> forall q, q ∈ regions st -> P q.
Proof.
  intros Hstep i st Hl. 
  induction Hl as [|i st st' Hl IH Hi Hm|i st p st' Hl IH Hi Hm]; intros q Hq.
  - by apply elem_of_nil in Hq.
  - rewrite (matchAt_none_state _ _ _ _ Hm) in Hq. by apply IH.
  - destruct (Hstep _ _ _ _ Hl Hi Hm) as [Hp Hrun].
    apply closeRun_regions in Hq as [Hq| ->].
    + apply (matchAt_regions _ _ _ _ _ q Hm) in Hq as [Hq| ->]; [by apply IH|done].
    + by rewrite (matchAt_lastIndex _ _ _ _ _ Hm).
Qed.

Lemma scan_regions text st :
  scan text = Done st ->
  exists i st0, loopState text i st0 /\ length text <= i /\
    s_lastIndex st = s_lastIndex st0 /\
    forall q, q ∈ regions st <->
      q ∈ regions st0 \/ q = mkPiece (s_lastIndex st0) (drop (s_lastIndex st0) text).
Proof.
  intros H. apply scan_loopState in H as (i & st0 & Hl & Hi & ->).
  exists i, st0. split; [done|]. split; [done|]. split; [done|]. intros q.
  unfold regions. cbn [pushSource s_macros s_literals s_comments s_sources].
  rewrite ?elem_of_app, ?list_elem_of_singleton. tauto.
Qed.

(** Every region of a scan is the part of the text at its [start]. *)
Lemma scan_inPlace text st :
  scan text = Done st -> forall p, p ∈ regions st -> inPlace text p.
Proof.
  intros H p Hp. apply scan_regions in H as (i & st0 & Hl & Hi & _ & Hreg).
  pose proof (loopState_lastIndex_le _ _ _ Hl) as Hle.
  apply Hreg in Hp as [Hp| ->]; [|by apply drop_inPlace].
  revert p Hp. apply (loopState_pieces (inPlace text) text) with (i := i); [|done].
  intros j st1 q st' Hl' Hj Hm. split; [by eapply matchAt_inPlace|].
  apply slice_inPlace. by eapply loopState_lastIndex_le.
Qed.

Lemma loopState_covered text i st :
  loopState text i st ->
  forall x, x < s_lastIndex st -> exists p, p ∈ regions st /\ covers p x.
Proof.
  induction 1 as [|i st st' Hl IH Hi Hm|i st p st' Hl IH Hi Hm]; intros x Hx.
  - simpl in Hx. lia.
  - rewrite (matchAt_none_state _ _ _ _ Hm) in *. by apply IH.
  - pose proof (matchAt_progress _ _ _ _ _ Hi Hm) as (Hs & He).
    pose proof (matchAt_lastIndex _ _ _ _ _ Hm) as HL.
    pose proof (loopState_lastIndex_le _ _ _ Hl) as Hle.
    cbn [closeRun pushSource s_lastIndex] in Hx.
    destruct (decide (x < s_lastIndex st)) as [Hlt|Hge].
    + destruct (IH x Hlt) as (q & Hq & Hc). exists q. split; [|done].
      apply closeRun_regions. left. apply (matchAt_regions _ _ _ _ _ q Hm). by left.
    + destruct (decide (x < start p)) as [Hlt'|Hge'].
      * eexists. split; [apply closeRun_regions; right; reflexivity|].
        unfold covers, pieceEnd. cbn [start content]. rewrite length_slice, HL. lia.
      * exists p. split; [|unfold covers, pieceEnd in *; lia].
        apply closeRun_regions. left. apply (matchAt_regions _ _ _ _ _ p Hm). by right.
Qed.

(** X5: the scan loses no character: every offset of the text lies in a
    region of one of the four lists (macros, plain runs, comments,
    literals), and the region has the character of the text at that
    offset. *)
Theorem every_offset_in_a_piece text st x :
  scan text = Done st -> x < length text ->
  exists p, p ∈ regions st /\ covers p x
            /\ content p !! (x - start p) = text !! x.
Proof.
  intros H Hx. pose proof (scan_inPlace text st H) as Hplace.
  apply scan_regions in H as (i & st0 & Hl & Hi & _ & Hreg).
  assert (Hc : exists p, p ∈ regions st /\ covers p x).
  { destruct (decide (x < s_lastIndex st0)) as [Hlt|Hge].
    - destruct (loopState_covered _ _ _ Hl x Hlt) as (p & Hp & Hc).
      exists p. split; [|done]. apply Hreg. by left.
    - eexists. split; [apply Hreg; right; reflexivity|].
      unfold covers, pieceEnd. cbn [start content]. rewrite length_drop. lia. }
  destruct Hc as (p & Hp & Hc). exists p. split; [done|]. split; [done|].
  destruct (Hplace p Hp) as [_ ->]. unfold covers in Hc.
  rewrite lookup_slice by lia. f_equal. lia.
Qed.

Lemma every_offset_in_a_piece_witness :
  let text := txt "a /*b*/ #c" in
  let st := match scan text with Done st => st | _ => emptyScan end in
  scan text = Done st /\ 7 < length text
  /\ exists p, p ∈ regions st /\ covers p 7
               /\ content p !! (7 - start p) = text !! 7.
Proof.
  intros text st.
  assert (H : scan text = Done st) by (vm_compute; reflexivity).
  assert (H1 : 7 < length text) by (vm_compute; lia).
  split; [exact H|]. split; [exact H1|].
  exact (every_offset_in_a_piece text st 7 H H1).
Defined.

(** ** The lists are in the order of the text *)

Lemma keepLeftBlank_above text i j :
  j < i -> test isBlank (text !! j) = false -> j < keepLeftBlank text i.
Proof.
  intros Hj Hb. induction i as [|i IH]; [lia|]. simpl.
  destruct (test isBlank (text !! i)) eqn:E; [|lia].
  destruct (decide (j = i)) as [->|]; [congruence|]. apply IH. lia.
Qed.

(** A region is found at a character that is not a blank, and starts behind
    every character before it that is not a blank. *)
Lemma matchAt_anchor text i st p st' :
  i < length text ->
  matchAt languageConfig text i st = Done (Some p, st') ->
  test isBlank (text !! i) = false /\
  forall j, j < i -> test isBlank (text !! j) = false -> j < start p.
Proof.
  intros Hi H. apply matchAt_cases in H
    as [(Hc & [= ->] & _)|[(q & Hc & Hl & [= ->] & _)
       |[(Hsw & [= ->] & _)|[(q & Hsw & Hb & [= ->] & _)|[? _]]]]]; [..|done].
  - split; [by rewrite Hc|]. intros j Hj Hb. cbn [matchMacro start].
    by apply keepLeftBlank_above.
  - apply matchLiteral_spec in Hl as (e & _ & _ & -> & _).
    split; [by destruct Hc as [-> | ->]|]. intros. cbn [start]. lia.
  - split.
    + rewrite <- head_drop. apply (startsWith_lookup _ _ 0 SLASH) in Hsw; [|done].
      rewrite <- head_lookup in Hsw. by rewrite Hsw.
    + intros. cbn [matchLineComment start]. lia.
  - split.
    + rewrite <- head_drop. apply (startsWith_lookup _ _ 0 SLASH) in Hsw; [|done].
      rewrite <- head_lookup in Hsw. by rewrite Hsw.
    + intros j Hj Hb'. apply matchBlockComment_spec in Hb as (c & h & -> & _).
      by apply keepLeftBlank_above.
Qed.

Lemma StronglySorted_snoc {A} (R : relation A) l x :
  StronglySorted R l -> (forall y, y ∈ l -> R y x) -> StronglySorted R (l ++ [x]).
Proof.
  intros Hl Hx. apply StronglySorted_app. split; [|split; [done|]].
  - intros x1 x2 H1 H2. apply list_elem_of_singleton in H2 as ->. by apply Hx.
  - repeat constructor.
Qed.

Lemma ascending_later text i i' l : i <= i' -> ascending text i l -> ascending text i' l.
Proof.
  intros Hi [Hs Ha]. split; [done|]. intros q Hq.
  destruct (Ha q Hq) as (j & Hj & Hb). exists j. split; [lia|done].
Qed.

Lemma ascending_push text i i' l p :
  i < i' -> start p <= i -> test isBlank (text !! i) = false ->
  (forall j, j < i -> test isBlank (text !! j) = false -> j < start p) ->
  ascending text i l -> ascending text i' (l ++ [p]).
Proof.
  intros Hi Hp Hb Habove [Hs Ha]. split.
  - apply StronglySorted_snoc; [done|]. intros q Hq.
    destruct (Ha q Hq) as (j & Hj & Hbj). unfold before.
    pose proof (Habove j (proj2 Hj) Hbj). lia.
  - intros q Hq. apply elem_of_app in Hq as [Hq|Hq].
    + destruct (Ha q Hq) as (j & Hj & Hbj). exists j. split; [lia|done].
    + apply list_elem_of_singleton in Hq as ->. exists i. split; [lia|done].
Qed.

Lemma runsAscending_push L L' l c :
  L < L' -> runsAscending L l -> runsAscending L' (l ++ [mkPiece L c]).
Proof.
  intros HL [Hs Hb]. split.
  - apply StronglySorted_snoc; [done|]. intros q Hq. unfold before. cbn [start].
    by apply Hb.
  - intros q Hq. apply elem_of_app in Hq as [Hq|Hq].
    + pose proof (Hb q Hq). lia.
    + apply list_elem_of_singleton in Hq as ->. cbn [start]. lia.
Qed.

Lemma loopState_ascending text i st :
  loopState text i st ->
  ascending text i (s_macros st) /\ ascending text i (s_literals st)
  /\ ascending text i (s_comments st)
  /\ (s_sources st = [] \/ runsAscending (s_lastIndex st) (s_sources st)).
Proof.
  assert (Hnil : forall j, ascending text j []).
  { intros j. split; [constructor|]. intros q Hq. by apply elem_of_nil in Hq. }
  induction 1 as [|i st st' Hl IH Hi Hm|i st p st' Hl IH Hi Hm].
  - cbn. split; [apply Hnil|split; [apply Hnil|split; [apply Hnil|by left]]].
  - rewrite (matchAt_none_state _ _ _ _ Hm).
    destruct IH as (H1 & H2 & H3 & H4).
    split; [|split; [|split; [|done]]];
      (eapply ascending_later; [|eassumption]; lia).
  - destruct IH as (H1 & H2 & H3 & H4).
    pose proof (matchAt_progress _ _ _ _ _ Hi Hm) as (Hs & He).
    pose proof (matchAt_anchor _ _ _ _ _ Hi Hm) as (Hb & Habove).
    pose proof (loopState_lastIndex _ _ _ Hl) as Hle.
    unfold pieceEnd in He.
    assert (Hsrc : runsAscending (start p + length (content p))
              (s_sources st ++ [mkPiece (s_lastIndex st)
                                  (slice text (s_lastIndex st) (start p))])).
    { apply runsAscending_push; [lia|]. destruct H4 as [-> |H4]; [|done].
      split; [constructor|]. intros q Hq. by apply elem_of_nil in Hq. }
    apply matchAt_cases in Hm
      as [(_ & [= <-] & ->)|[(p0 & _ & _ & [= <-] & ->)
         |[(_ & [= <-] & ->)|[(p0 & _ & _ & [= <-] & ->)|[? _]]]]]; [..|done];
      cbn [closeRun pushSource pushMacro pushLiteral pushComment s_macros
           s_literals s_comments s_sources s_lastIndex] in *;
      (split; [|split; [|split; [|by right]]]);
      first [ apply (ascending_push text i); (done || lia)
            | eapply ascending_later; [|eassumption]; lia ].
Qed.

Lemma StronglySorted_filter {A} (R : relation A) (P : A -> Prop)
  `{forall x, Decision (P x)} l :
  StronglySorted R l -> StronglySorted R (filter P l).
Proof.
  induction 1 as [|x l Hl IH Hx]; [constructor|].
  rewrite filter_cons. case_decide; [|done]. constructor; [done|].
  apply Forall_forall. intros y Hy. apply list_elem_of_filter in Hy as [_ Hy].
  revert y Hy. by apply Forall_forall.
Qed.

Lemma StronglySorted_restart (f : SourcePiece -> SourcePiece) l :
  (forall p, start (f p) = start p) ->
  StronglySorted before l -> StronglySorted before (f <$> l).
Proof.
  intros Hf. induction 1 as [|x l Hl IH Hx]; [constructor|].
  rewrite fmap_cons. constructor; [done|]. apply Forall_fmap.
  eapply Forall_impl; [exact Hx|]. intros y Hy. unfold before, compose in *.
  by rewrite !Hf.
Qed.

(** The result, field by field. *)
Lemma assemble_eq st :
  let sources1 := fst (forEachReplace getNamespaceRegex (s_sources st)) in
  assemble st =
  {| macros := fst (forEachReplace getImportRegex (s_macros st));
     sources := filter (fun p => filterNotEmptyPiece p = true)
                  (fst (forEachReplace getTypedefRegex sources1));
     comments := filter (fun p => filterNotEmptyPiece p = true) (s_comments st);
     literals := filter (fun p => filterNotEmptyPiece p = true) (s_literals st);
     dependencies :=
       filter (fun d => notEmpty d = true)
         (setOf (map (group 1) (snd (forEachReplace getImportRegex (s_macros st)))));
     namespaces :=
       filter (fun ns => notEmpty ns = true)
         (map (group 1) (snd (forEachReplace getNamespaceRegex (s_sources st))));
     typedefs :=
       foldl (fun (m : gmap (list N) (list N)) g => <[group 2 g := group 1 g]> m) ∅
         (snd (forEachReplace getTypedefRegex sources1)) |}.
Proof.
  unfold assemble. destruct (forEachReplace getImportRegex (s_macros st)).
  destruct (forEachReplace getNamespaceRegex (s_sources st)) as [src ?].
  cbn [fst snd]. by destruct (forEachReplace getTypedefRegex src).
Qed.

(** X6: in each of the four lists of the result the regions stand in the
    order of the text, with strictly increasing starts: no two regions of
    one list start at the same offset, although a region may reach back
    over blanks. *)
Theorem lists_in_order_of_start text item :
  partition text = Done item ->
  StronglySorted before (macros item) /\ StronglySorted before (sources item)
  /\ StronglySorted before (comments item) /\ StronglySorted before (literals item).
Proof.
  intros H. apply partition_done in H as (st & Hs & ->).
  apply scan_loopState in Hs as (i & st0 & Hl & _ & ->).
  destruct (loopState_ascending _ _ _ Hl) as ([H1 _] & [H2 _] & [H3 _] & H4).
  rewrite assemble_eq. cbn [macros sources comments literals pushSource s_macros
                            s_sources s_comments s_literals].
  rewrite !forEachReplace_fst.
  split; [by apply StronglySorted_restart|].
  split; [|split; by apply StronglySorted_filter].
  apply StronglySorted_filter. do 2 (apply StronglySorted_restart; [done|]).
  destruct H4 as [-> |[H4 H5]]; [repeat constructor|].
  apply StronglySorted_snoc; [done|]. intros q Hq. unfold before. cbn [start].
  by apply H5.
Qed.

Lemma lists_in_order_of_start_witness :
  let text := txt "#a" ++ [NL] ++ txt "x 'b' /*c*/ /*d*/ #e" in
  let item := match partition text with
              | Done item => item
              | _ => assemble emptyScan
              end in
  partition text = Done item
  /\ StronglySorted before (macros item) /\ StronglySorted before (sources item)
  /\ StronglySorted before (comments item) /\ StronglySorted before (literals item).
Proof.
  intros text item.
  assert (H : partition text = Done item) by (vm_compute; reflexivity).
  split; [exact H|]. exact (lists_in_order_of_start text item H).
Defined.

(** ** Comments and literals are never empty *)

Lemma matchBlockComment_size text i p :
  startsWith [SLASH; STAR] (drop i text) = true ->
  matchBlockComment text i ([SLASH; STAR], [STAR; SLASH]) = Done p ->
  start p <= i /\ i + 3 <= pieceEnd p.
Proof.
  intros Hsw Hb.
  apply matchBlockComment_spec in Hb
    as (c & h & Hst & Hc & Hcl & _ & Hh & _ & _ & He & _).
  pose proof (keepLeftBlank_le text i) as Hle. rewrite <- Hst in Hle.
  split; [done|]. cbn [fst snd length] in *.
  assert (Hstar : text !! c = Some STAR).
  { rewrite <- (Nat.add_0_r c), <- lookup_drop.
    by apply (startsWith_lookup [STAR; SLASH]). }
  assert (Hslash : text !! i = Some SLASH).
  { rewrite <- (Nat.add_0_r i), <- lookup_drop.
    by apply (startsWith_lookup [SLASH; STAR]). }
  destruct (decide (i < c)) as [|Hn]; [lia|]. exfalso.
  destruct (decide (c = i)) as [->|]; [rewrite Hslash in Hstar; cbv in Hstar; discriminate|].
  assert (Hbl : test isBlank (text !! c) = true).
  { apply (keepLeftBlank_blank text i). rewrite <- Hst. lia. }
  rewrite Hstar in Hbl. done.
Qed.

Lemma loopState_sizes text i st :
  loopState text i st ->
  Forall (atLeast 1) (s_macros st) /\ Forall (atLeast 2) (s_literals st)
  /\ Forall (atLeast 2) (s_comments st).
Proof.
  induction 1 as [|i st st' Hl IH Hi Hm|i st p st' Hl IH Hi Hm].
  - cbn. repeat split; constructor.
  - by rewrite (matchAt_none_state _ _ _ _ Hm).
  - destruct IH as (H1 & H2 & H3).
    pose proof (matchAt_progress _ _ _ _ _ Hi Hm) as (Hs & He).
    unfold pieceEnd in He.
    apply matchAt_cases in Hm
      as [(_ & [= ->] & ->)|[(p0 & _ & Hlit & [= ->] & ->)
         |[(Hsw & [= ->] & ->)|[(p0 & Hsw & Hb & [= ->] & ->)|[? _]]]]]; [..|done];
      cbn [closeRun pushSource pushMacro pushLiteral pushComment s_macros
           s_literals s_comments]; (split; [|split]); try done;
      apply Forall_app; (split; [done|]); apply Forall_singleton; unfold atLeast.
    + lia.
    + apply matchLiteral_spec in Hlit as (e & He' & _ & -> & Hend).
      unfold pieceEnd in Hend. cbn [start content] in *. lia.
    + destruct (matchLineComment_spec text i [SLASH; SLASH] Hi Hsw) as (Hst & He' & _).
      unfold pieceEnd in He'. rewrite Hst in He'. cbn [length] in He'. lia.
    + destruct (matchBlockComment_size text i p0 Hsw Hb) as [? He'].
      unfold pieceEnd in He'. lia.
Qed.

Lemma filter_atLeast n l :
  0 < n -> Forall (atLeast n) l ->
  filter (fun p => filterNotEmptyPiece p = true) l = l.
Proof.
  intros Hn. induction 1 as [|x l Hx Hl IH]; [done|].
  rewrite filter_cons_True, IH; [done|].
  unfold filterNotEmptyPiece, atLeast in *. apply Nat.ltb_lt. lia.
Qed.

(** X7: the filter for empty content never removes a comment or a
    literal: the comments and literals of the result are the ones of the
    scan, each of at least two characters. *)
Theorem comments_and_literals_kept text item :
  partition text = Done item ->
  exists st, scan text = Done st
    /\ comments item = s_comments st /\ literals item = s_literals st
    /\ Forall (atLeast 2) (comments item) /\ Forall (atLeast 2) (literals item).
Proof.
  intros H. apply partition_done in H as (st & Hs & ->). exists st. split; [done|].
  apply scan_loopState in Hs as (i & st0 & Hl & _ & ->).
  destruct (loopState_sizes _ _ _ Hl) as (_ & H2 & H3).
  rewrite assemble_eq. cbn [comments literals pushSource s_comments s_literals].
  rewrite (filter_atLeast 2), (filter_atLeast 2) by (done || lia). done.
Qed.

Lemma comments_and_literals_kept_witness :
  let text := txt "a//" ++ [NL] ++ txt "''" in
  let item := match partition text with
              | Done item => item
              | _ => assemble emptyScan
              end in
  partition text = Done item
  /\ exists st, scan text = Done st
       /\ comments item = s_comments st /\ literals item = s_literals st
       /\ Forall (atLeast 2) (comments item) /\ Forall (atLeast 2) (literals item).
Proof.
  intros text item.
  assert (H : partition text = Done item) by (vm_compute; reflexivity).
  split; [exact H|]. exact (comments_and_literals_kept text item H).
Defined.

(** ** A text without macros, literals and comments *)

Lemma matchAt_nothing text i st :
  text !! i <> Some HASH -> text !! i <> Some DQUOTE -> text !! i <> Some SQUOTE ->
  startsWith [SLASH; SLASH] (drop i text) = false ->
  startsWith [SLASH; STAR] (drop i text) = false ->
  matchAt languageConfig text i st = Done (None, st).
Proof.
  intros Hh Hd Hs Hlc Hbc. unfold matchAt.
  cbn [languageConfig macroMark quoteMark inlineCommentMark blockCommentMark
       fst snd tryQuotes].
  assert (Hone : forall c, text !! i <> Some c -> startsWith [c] (drop i text) = false).
  { intros c Hc. destruct (startsWith [c] (drop i text)) eqn:E; [|done].
    apply startsWith_one in E. by rewrite head_drop in E. }
  rewrite !Hone by done. cbn [bind]. by rewrite Hlc, Hbc.
Qed.

Lemma scanFrom_plain text fuel : forall i st,
  noIntroducer text -> length text - i < fuel ->
  scanFrom languageConfig fuel text i st = Done st.
Proof.
  induction fuel as [|fuel IH]; intros i st Hp Hf; [lia|].
  cbn [scanFrom]. destruct (length text <=? i) eqn:E; [done|].
  apply Nat.leb_gt in E. destruct (Hp i) as (? & ? & ? & ? & ?).
  rewrite matchAt_nothing by done. cbn [bind]. apply IH; [done|lia].
Qed.

(** X8: a text in which no offset starts a macro, a literal or a comment
    (the empty text among them) is scanned into one plain run, the whole
    text at offset 0, and the result has no macros, comments, literals or
    dependencies. *)
Theorem plain_text_is_one_run text :
  noIntroducer text ->
  scan text = Done (mkScan [] [mkPiece 0 text] [] [] 0)
  /\ exists item, partition text = Done item
       /\ macros item = [] /\ comments item = [] /\ literals item = []
       /\ dependencies item = [].
Proof.
  intros Hp.
  assert (Hs : scan text = Done (mkScan [] [mkPiece 0 text] [] [] 0)).
  { unfold scan, scanWith. rewrite scanFrom_plain by (done || lia). done. }
  split; [done|]. exists (assemble (mkScan [] [mkPiece 0 text] [] [] 0)).
  split; [unfold partition; by rewrite Hs|]. rewrite assemble_eq. done.
Qed.

Lemma plain_text_is_one_run_witness :
  let text := txt "int a / b;" in
  noIntroducer text /\ scan text = Done (mkScan [] [mkPiece 0 text] [] [] 0).
Proof.
  intros text.
  assert (H : noIntroducer text).
  { intros i.
    do 10 (destruct i as [|i]; [vm_compute; repeat split; discriminate|]).
    destruct i; vm_compute; repeat split; discriminate. }
  split; [exact H|]. exact (proj1 (plain_text_is_one_run text H)).
Defined.

(** ** When [partition] fails *)

Lemma matchAt_literal_fatal text i st q f :
  text !! i = Some q -> q = DQUOTE \/ q = SQUOTE ->
  matchLiteral text i = Fatal f ->
  matchAt languageConfig text i st = Fatal f.
Proof.
  intros Hi Hq Hf. unfold matchAt.
  cbn [languageConfig macroMark quoteMark inlineCommentMark blockCommentMark
       fst snd tryQuotes].
  rewrite <- head_drop in Hi. destruct (drop i text) as [|c rest]; [done|].
  injection Hi as ->. rewrite Hf.
  destruct Hq as [-> | ->]; done.
Qed.

Lemma matchAt_blockComment_fatal text i st f :
  startsWith [SLASH; STAR] (drop i text) = true ->
  matchBlockComment text i ([SLASH; STAR], [STAR; SLASH]) = Fatal f ->
  matchAt languageConfig text i st = Fatal f.
Proof.
  intros Hs Hf. unfold matchAt.
  cbn [languageConfig macroMark quoteMark inlineCommentMark blockCommentMark
       fst snd tryQuotes].
  rewrite Hf.
  destruct (drop i text) as [|c [|d rest]]; [done| |].
  - cbn in Hs. by rewrite andb_false_r in Hs.
  - cbn [startsWith] in Hs. rewrite andb_true_r in Hs.
    apply andb_true_iff in Hs as [Hc Hd].
    apply N.eqb_eq in Hc as <-. apply N.eqb_eq in Hd as <-. done.
Qed.

(** X9: [partition] fails for an open literal exactly when the loop
    reaches a quote (double or single) behind which every occurrence of
    the same quote is escaped. *)
Theorem unterminated_literal_iff text :
  partition text = Fatal UnterminatedLiteral <->
  exists i st q,
    loopState text i st /\ text !! i = Some q /\ (q = DQUOTE \/ q = SQUOTE)
    /\ forall j, drop (S i) text !! j = Some q -> escaped (drop (S i) text) j = true.
Proof.
  rewrite partition_fatal_iff. split.
  - intros (i & st & Hl & Hi & Hm).
    apply matchAt_fatal in Hm as [[Hq Hf]|[_ Hf]].
    + assert (Hq' : exists q, text !! i = Some q /\ (q = DQUOTE \/ q = SQUOTE))
        by (destruct Hq; eauto).
      destruct Hq' as (q & Hiq & Hq'). exists i, st, q.
      do 3 (split; [done|]).
      assert (Hb : q <> BACKSLASH) by (by destruct Hq' as [-> | ->]).
      destruct (matchLiteral_unescaped text i q Hiq Hb)
        as [(k & Hd & _)|[_ Hall]]; cbn zeta in *; [congruence|done].
    + apply matchBlockComment_fatal in Hf as [Hf _]. discriminate Hf.
  - intros (i & st & q & Hl & Hi & Hq & Hall). exists i, st.
    split; [done|]. split; [by apply lookup_lt_Some in Hi|].
    apply (matchAt_literal_fatal text i st q); [done..|].
    assert (Hb : q <> BACKSLASH) by (by destruct Hq as [-> | ->]).
    destruct (matchLiteral_unescaped text i q Hi Hb)
      as [(k & Hd & Hk & He & _)|[Hf _]]; cbn zeta in *; [|done].
    rewrite (Hall k Hk) in He. discriminate He.
Qed.

(** X10: [partition] fails for an open block comment exactly when the
    loop reaches an opening token behind which no closing token starts,
    the search beginning two characters behind the start of the region
    (the blanks before the opening token included). *)
Theorem unterminated_block_comment_iff text :
  partition text = Fatal UnterminatedBlockComment <->
  exists i st,
    loopState text i st /\ startsWith [SLASH; STAR] (drop i text) = true
    /\ forall c, keepLeftBlank text i + 2 <= c < length text ->
                 startsWith [STAR; SLASH] (drop c text) = false.
Proof.
  rewrite partition_fatal_iff. split.
  - intros (i & st & Hl & Hi & Hm).
    apply matchAt_fatal in Hm as [[Hq Hf]|[Hs Hf]].
    + assert (Hq' : exists q, text !! i = Some q /\ q <> BACKSLASH)
        by (destruct Hq; eauto).
      destruct Hq' as (q & Hiq & Hb).
      destruct (matchLiteral_unescaped text i q Hiq Hb)
        as [(k & Hd & _)|[Hf' _]]; cbn zeta in *; congruence.
    + apply matchBlockComment_fatal in Hf as [_ Hf]. eauto.
  - intros (i & st & Hl & Hs & Hall). exists i, st. split; [done|].
    split.
    + destruct (decide (i < length text)); [done|].
      rewrite drop_ge in Hs by lia. done.
    + apply matchAt_blockComment_fatal; [done|].
      apply matchBlockComment_fatal. done.
Qed.

(** ** What the patterns capture

    The matcher is faithful to the pattern with its groups, so the groups
    of a match can be read off the pattern. *)

Section Faithful.
Variable p : char -> bool.
Variable k : str -> nat -> list nat * list (nat * nat) ->
             option (nat * (list nat * list (nat * nat))).
Variable r : regex.
Hypothesis k_faithful : faithful k r.

Lemma faithful_empty_run q s i c n c' :
  q = Many0 \/ q = Lazy0 ->
  k s i c = Some (n, c') ->
  exists pre suf, s = pre ++ suf /\ n = i + length pre
                  /\ captures_of (Atom p q :: r) pre i c c'.
Proof.
  intros Hq H. apply k_faithful in H as (pre & suf & -> & -> & Hacc).
  exists pre, suf. split; [done|]. split; [done|].
  destruct Hq as [-> | ->]; exists [], pre; cbn [length]; rewrite Nat.add_0_r;
    by repeat split.
Qed.

Lemma faithful_longer_run q x s i c n c' :
  q = Many0 \/ q = Lazy0 -> p x = true ->
  (exists pre suf, s = pre ++ suf /\ n = S i + length pre
                   /\ captures_of (Atom p q :: r) pre (S i) c c') ->
  exists pre suf, x :: s = pre ++ suf /\ n = i + length pre
                  /\ captures_of (Atom p q :: r) pre i c c'.
Proof.
  intros Hq Hx (pre & suf & -> & -> & Hacc).
  exists (x :: pre), suf. split; [done|]. split; [simpl; lia|].
  destruct Hq as [-> | ->]; destruct Hacc as (run & pre' & -> & Hrun & Hacc);
    exists (x :: run), pre'; (split; [done|]); (split; [by constructor|]);
    cbn [length]; by replace (i + S (length run)) with (S i + length run) by lia.
Qed.

Lemma greedy_faithful : faithful (greedy p k) (Atom p Many0 :: r).
Proof.
  intros s. induction s as [|x s IH]; intros i c n c' H; simpl in H.
  - eapply faithful_empty_run; eauto.
  - destruct (p x) eqn:E; [|eapply faithful_empty_run; eauto].
    destruct (greedy p k s (S i) c) as [[n0 c0]|] eqn:G;
      [|eapply faithful_empty_run; eauto].
    injection H as -> ->. apply faithful_longer_run; eauto.
Qed.

Lemma reluctant_faithful : faithful (reluctant p k) (Atom p Lazy0 :: r).
Proof.
  intros s. induction s as [|x s IH]; intros i c n c' H; simpl in H.
  - destruct (k [] i c) as [[n0 c0]|] eqn:K; [|done]. injection H as -> ->.
    eapply faithful_empty_run; eauto.
  - destruct (k (x :: s) i c) as [[n0 c0]|] eqn:K.
    + injection H as -> ->. eapply faithful_empty_run; eauto.
    + destruct (p x) eqn:E; [|done]. apply faithful_longer_run; eauto.
Qed.
End Faithful.

Lemma matchHere_faithful r : faithful (matchHere r) r.
Proof.
  induction r as [|nd r IH]; intros s i c n c' H.
  - simpl in H. injection H as <- <-. exists [], s. simpl.
    split; [done|]. split; [lia|done].
  - destruct nd as [p q| |].
    + destruct q; simpl in H.
      * destruct s as [|x s]; [done|]. destruct (p x) eqn:E; [|done].
        apply IH in H as (pre & suf & -> & -> & Hacc).
        exists (x :: pre), suf. split; [done|]. split; [simpl; lia|].
        exists x, pre. done.
      * by apply (greedy_faithful p _ r IH) in H.
      * destruct s as [|x s]; [done|]. destruct (p x) eqn:E; [|done].
        apply (greedy_faithful p _ r IH) in H
          as (pre & suf & -> & -> & (run & pre' & -> & Hrun & Hacc)).
        exists (x :: run ++ pre'), suf. split; [done|]. split; [simpl; lia|].
        exists x, run, pre'. done.
      * by apply (reluctant_faithful p _ r IH) in H.
    + simpl in H. by apply IH in H.
    + simpl in H. destruct (fst c) as [|b open] eqn:Hc;
        apply IH in H as (pre & suf & -> & -> & Hacc);
        exists pre, suf; (split; [done|]); (split; [done|]);
        cbn [captures_of]; by rewrite Hc.
Qed.

(** Literal characters leave the groups as they are. *)
Lemma captures_of_lit w r pre i c c' :
  captures_of (map (fun ch => Atom (eqc ch) Once) w ++ r) pre i c c' ->
  exists pre', pre = w ++ pre' /\ captures_of r pre' (i + length w) c c'.
Proof.
  revert pre i. induction w as [|ch w IH]; intros pre i H.
  - exists pre. simpl. by rewrite Nat.add_0_r.
  - cbn [map app captures_of] in H. destruct H as (x & pre' & -> & Hx & H).
    apply N.eqb_eq in Hx as <-. apply IH in H as (pre'' & -> & H).
    exists pre''. split; [done|]. cbn [length].
    by replace (i + S (length w)) with (S i + length w) by lia.
Qed.

Lemma matchAtHead_faithful r s n g :
  matchAtHead r s = Some (n, g) ->
  exists pre suf c', s = pre ++ suf /\ n = length pre
    /\ captures_of r pre 0 ([], []) c'
    /\ g = map (fun be => slice s (fst be) (snd be)) (snd c').
Proof.
  unfold matchAtHead.
  destruct (matchHere r s 0 ([], [])) as [[n0 c0]|] eqn:E; [|done].
  intros [= <- <-]. apply matchHere_faithful in E as (pre & suf & -> & -> & H).
  exists pre, suf, c0. done.
Qed.

(** The groups of a match of each pattern. *)
Lemma namespace_groups s n g :
  matchAtHead getNamespaceRegex s = Some (n, g) ->
  exists w, g = [w] /\ w <> [] /\ Forall (fun x => isWord x = true) w.
Proof.
  intros H. apply matchAtHead_faithful in H as (pre & suf & c' & -> & _ & H & ->).
  unfold getNamespaceRegex, lit in H.
  apply captures_of_lit in H as (p1 & -> & H). cbn [app captures_of] in H.
  destruct H as (x1 & run1 & p2 & -> & _ & _ & H).
  apply captures_of_lit in H as (p3 & -> & H). cbn [app captures_of fst snd] in H.
  destruct H as (x2 & run2 & p4 & -> & _ & _ & w1 & wr & p5 & -> & Hw1 & Hwr &
                 sp & p6 & -> & _ & semi & p7 & -> & _ & sp2 & p8 & -> & _ & -> & ->).
  exists (w1 :: wr). cbn [map fst snd app]. split; [|split; [done|by constructor]].
  f_equal.
  apply (slice_at _ (txt "using" ++ x1 :: run1 ++ txt "namespace" ++ x2 :: run2)
           (w1 :: wr) (sp ++ semi :: sp2 ++ [] ++ suf)).
  - by flatten.
  - measure.
  - measure.
Qed.

Lemma import_groups s n g :
  matchAtHead getImportRegex s = Some (n, g) ->
  exists w, g = [w] /\ w <> [] /\ Forall (fun x => isPathChar x = true) w.
Proof.
  intros H. apply matchAtHead_faithful in H as (pre & suf & c' & -> & _ & H & ->).
  unfold getImportRegex, lit in H.
  apply captures_of_lit in H as (p1 & -> & H). cbn [app captures_of fst snd] in H.
  destruct H as (run1 & p2 & -> & _ & op & p3 & -> & _ & w1 & wr & p4 & -> & Hw1 &
                 Hwr & cl & p5 & -> & _ & run2 & p6 & -> & _ & nl & p7 & -> & _ &
                 -> & ->).
  exists (w1 :: wr). cbn [map fst snd app]. split; [|split; [done|by constructor]].
  f_equal.
  apply (slice_at _ (txt "#include" ++ run1 ++ [op]) (w1 :: wr)
           (cl :: run2 ++ nl :: [] ++ suf)).
  - by flatten.
  - measure.
  - measure.
Qed.

Lemma typedef_groups s n g :
  matchAtHead getTypedefRegex s = Some (n, g) ->
  exists raw alias, g = [raw; alias]
    /\ raw <> [] /\ Forall (fun x => isTypeChar x = true) raw
    /\ alias <> [] /\ Forall (fun x => isWord x = true) alias.
Proof.
  intros H. apply matchAtHead_faithful in H as (pre & suf & c' & -> & _ & H & ->).
  unfold getTypedefRegex, lit in H.
  apply captures_of_lit in H as (p1 & -> & H). cbn [app captures_of fst snd] in H.
  destruct H as (x1 & run1 & p2 & -> & _ & _ & t1 & tr & p3 & -> & Ht1 & Htr &
                 x2 & run2 & p4 & -> & _ & _ & a1 & ar & p5 & -> & Ha1 & Har &
                 sp & p6 & -> & _ & semi & p7 & -> & _ & sp2 & p8 & -> & _ &
                 -> & ->).
  exists (t1 :: tr), (a1 :: ar). cbn [map fst snd app].
  split; [|split; [done|split; [by constructor|split; [done|by constructor]]]].
  f_equal; [|f_equal].
  - apply (slice_at _ (txt "typedef" ++ x1 :: run1) (t1 :: tr)
             (x2 :: run2 ++ a1 :: ar ++ sp ++ semi :: sp2 ++ [] ++ suf)).
    + by flatten.
    + measure.
    + measure.
  - apply (slice_at _ (txt "typedef" ++ x1 :: run1 ++ t1 :: tr ++ x2 :: run2)
             (a1 :: ar) (sp ++ semi :: sp2 ++ [] ++ suf)).
    + by flatten.
    + measure.
    + measure.
Qed.

(** Every group list the callback is given comes from a match of the
    pattern at some offset of some content. *)
Lemma replaceAll_groups r s : forall k g,
  g ∈ snd (replaceAll r s k) -> exists a n, matchAtHead r (drop a s) = Some (n, g).
Proof.
  induction s as [|x s IH]; intros k g Hg.
  - cbn [replaceAll] in Hg. destruct (matchAtHead r []) as [[n g0]|] eqn:E.
    + apply list_elem_of_singleton in Hg as ->. exists 0, n. done.
    + by apply elem_of_nil in Hg.
  - assert (Htail : forall k', g ∈ snd (replaceAll r s k') ->
              exists a n, matchAtHead r (drop a (x :: s)) = Some (n, g)).
    { intros k' H. apply IH in H as (a & n & H). exists (S a), n. done. }
    destruct k as [|k]; [|by apply (Htail k)].
    cbn [replaceAll] in Hg.
    destruct (matchAtHead r (x :: s)) as [[[|n] g0]|] eqn:E.
    + destruct (replaceAll r s 0) as [out gs] eqn:R. cbn [snd] in Hg.
      apply elem_of_cons in Hg as [-> |Hg]; [by exists 0, 0|].
      apply (Htail 0). by rewrite R.
    + destruct (replaceAll r s n) as [out gs] eqn:R. cbn [snd] in Hg.
      apply elem_of_cons in Hg as [-> |Hg]; [by exists 0, (S n)|].
      apply (Htail n). by rewrite R.
    + destruct (replaceAll r s 0) as [out gs] eqn:R. cbn [snd] in Hg.
      apply (Htail 0). by rewrite R.
Qed.

Lemma forEachReplace_groups r ps g :
  g ∈ snd (forEachReplace r ps) ->
  exists p, p ∈ ps /\ g ∈ snd (replaceAll r (content p) 0).
Proof.
  induction ps as [|p ps IH]; cbn [forEachReplace]; [by intros ?%elem_of_nil|].
  destruct (replaceAll r (content p) 0) as [out gs] eqn:R.
  destruct (forEachReplace r ps) as [ps' gs']. cbn [snd] in *.
  intros [H|H]%elem_of_app.
  - exists p. split; [by left|]. by rewrite R.
  - destruct (IH H) as (q & Hq & Hg). exists q. split; [by right|done].
Qed.

Lemma forEachReplace_matches r ps g :
  g ∈ snd (forEachReplace r ps) -> exists s n, matchAtHead r s = Some (n, g).
Proof.
  intros H. apply forEachReplace_groups in H as (p & _ & H).
  apply replaceAll_groups in H as (a & n & H). eauto.
Qed.

(** ** What extraction returns *)

(** X11: every dependency of the result is a non-empty string of
    characters of the class of the include pattern: word characters,
    [-], [_], [.], [:], [/] and the backslash. *)
Theorem dependencies_are_paths text item d :
  partition text = Done item -> d ∈ dependencies item ->
  d <> [] /\ Forall (fun c => isPathChar c = true) d.
Proof.
  intros H Hd. apply partition_done in H as (st & _ & ->).
  rewrite assemble_eq in Hd. cbn [dependencies] in Hd.
  apply list_elem_of_filter in Hd as [_ Hd]. rewrite setOf_elem_of in Hd.
  apply list_elem_of_fmap in Hd as (g & -> & Hg).
  apply forEachReplace_matches in Hg as (s & n & Hg).
  apply import_groups in Hg as (w & -> & Hw). done.
Qed.

Lemma dependencies_are_paths_witness :
  let text := txt "#include <sys/a.h>" ++ [NL] in
  let item := match partition text with
              | Done item => item
              | _ => assemble emptyScan
              end in
  partition text = Done item /\ txt "sys/a.h" ∈ dependencies item
  /\ txt "sys/a.h" <> [] /\ Forall (fun c => isPathChar c = true) (txt "sys/a.h").
Proof.
  intros text item.
  assert (H : partition text = Done item) by (vm_compute; reflexivity).
  assert (Hd : txt "sys/a.h" ∈ dependencies item).
  { replace (dependencies item) with [txt "sys/a.h"] by (vm_compute; reflexivity).
    apply list_elem_of_singleton. reflexivity. }
  split; [exact H|]. split; [exact Hd|].
  exact (dependencies_are_paths text item _ H Hd).
Defined.

(** X12: every namespace of the result is a non-empty string of word
    characters. *)
Theorem namespaces_are_identifiers text item ns :
  partition text = Done item -> ns ∈ namespaces item ->
  ns <> [] /\ Forall (fun c => isWord c = true) ns.
Proof.
  intros H Hd. apply partition_done in H as (st & _ & ->).
  rewrite assemble_eq in Hd. cbn [namespaces] in Hd.
  apply list_elem_of_filter in Hd as [_ Hd].
  apply list_elem_of_fmap in Hd as (g & -> & Hg).
  apply forEachReplace_matches in Hg as (s & n & Hg).
  apply namespace_groups in Hg as (w & -> & Hw). done.
Qed.

Lemma namespaces_are_identifiers_witness :
  let text := txt "using namespace std ;" in
  let item := match partition text with
              | Done item => item
              | _ => assemble emptyScan
              end in
  partition text = Done item /\ txt "std" ∈ namespaces item
  /\ txt "std" <> [] /\ Forall (fun c => isWord c = true) (txt "std").
Proof.
  intros text item.
  assert (H : partition text = Done item) by (vm_compute; reflexivity).
  assert (Hd : txt "std" ∈ namespaces item).
  { replace (namespaces item) with [txt "std"] by (vm_compute; reflexivity).
    apply list_elem_of_singleton. reflexivity. }
  split; [exact H|]. split; [exact Hd|].
  exact (namespaces_are_identifiers text item _ H Hd).
Defined.

(** [typedefs.set(alias, raw)] over the matches in turn: a later match
    for an alias replaces an earlier one. *)
Lemma foldl_set_last (tds : list (list str)) : forall (m : gmap (list N) (list N)) alias,
  foldl (fun (m : gmap (list N) (list N)) g => <[group 2 g := group 1 g]> m) m tds !! alias
  = match last (declared alias tds) with
    | Some g => Some (group 1 g)
    | None => m !! alias
    end.
Proof.
  induction tds as [|g tds IH]; intros m alias; [done|].
  cbn [foldl]. rewrite IH. unfold declared. rewrite filter_cons.
  case_decide as Hg.
  - destruct (filter (fun g0 => group 2 g0 = alias) tds) as [|g' l] eqn:F.
    + cbn. rewrite <- Hg. apply lookup_insert_eq.
    + rewrite (last_cons g (g' :: l)).
      destruct (last (g' :: l)) eqn:L; [done|]. by apply last_None in L.
  - destruct (last (filter (fun g0 => group 2 g0 = alias) tds)); [done|].
    by apply lookup_insert_ne.
Qed.

(** X14: when several typedefs declare the same alias, the map holds the
    type of the last one in the order of the text: the entry of an alias
    is the first group of the last match whose second group is the alias,
    and an alias no match declares has no entry. *)
Theorem typedefs_last_declaration_wins text item alias :
  partition text = Done item ->
  exists st, scan text = Done st
    /\ typedefs item !! alias
       = group 1 <$> last (declared alias (typedefMatches st)).
Proof.
  intros H. apply partition_done in H as (st & Hs & ->). exists st. split; [done|].
  rewrite assemble_eq. cbn [typedefs]. rewrite foldl_set_last.
  fold (typedefMatches st). by destruct (last (declared alias (typedefMatches st))).
Qed.

Lemma typedefs_last_declaration_wins_witness :
  let text := txt "typedef int a;typedef long a;" in
  let item := match partition text with
              | Done item => item
              | _ => assemble emptyScan
              end in
  partition text = Done item
  /\ typedefs item !! txt "a" = Some (txt "long")
  /\ exists st, scan text = Done st
       /\ typedefs item !! txt "a"
          = group 1 <$> last (declared (txt "a") (typedefMatches st)).
Proof.
  intros text item.
  assert (H : partition text = Done item) by (vm_compute; reflexivity).
  split; [exact H|]. split; [vm_compute; reflexivity|].
  exact (typedefs_last_declaration_wins text item (txt "a") H).
Defined.

(** X13: every entry of the typedef map has a non-empty alias of word
    characters as its key and a non-empty type of characters of the
    class of the typedef pattern (word characters, [*], the space, [<]
    and [>]) as its value. *)
Theorem typedefs_are_well_formed text item alias raw :
  partition text = Done item -> typedefs item !! alias = Some raw ->
  alias <> [] /\ Forall (fun c => isWord c = true) alias
  /\ raw <> [] /\ Forall (fun c => isTypeChar c = true) raw.
Proof.
  intros H Hl. apply partition_done in H as (st & Hs & ->).
  rewrite assemble_eq in Hl. cbn [typedefs] in Hl. rewrite foldl_set_last in Hl.
  destruct (last (declared alias _)) as [g|] eqn:E; [|done].
  injection Hl as <-. apply last_Some_elem_of in E.
  apply list_elem_of_filter in E as [<- Hg].
  apply forEachReplace_matches in Hg as (s & n & Hg).
  apply typedef_groups in Hg as (raw & al & -> & ? & ? & ? & ?). done.
Qed.

Lemma typedefs_are_well_formed_witness :
  let text := txt "typedef long long ll;" in
  let item := match partition text with
              | Done item => item
              | _ => assemble emptyScan
              end in
  partition text = Done item
  /\ typedefs item !! txt "ll" = Some (txt "long long")
  /\ txt "ll" <> [] /\ Forall (fun c => isWord c = true) (txt "ll")
  /\ txt "long long" <> []
  /\ Forall (fun c => isTypeChar c = true) (txt "long long").
Proof.
  intros text item.
  assert (H : partition text = Done item) by (vm_compute; reflexivity).
  assert (H1 : typedefs item !! txt "ll" = Some (txt "long long"))
    by (vm_compute; reflexivity).
  split; [exact H|]. split; [exact H1|].
  exact (typedefs_are_well_formed text item _ _ H H1).
Defined.

(** Replacing matches by the empty string only takes characters out. *)
Lemma replaceAll_sublist r s : forall k, fst (replaceAll r s k) `sublist_of` s.
Proof.
  induction s as [|x s IH]; intros k.
  - cbn [replaceAll]. by destruct (matchAtHead r []) as [[n g]|].
  - destruct k as [|k]; cbn [replaceAll]; [|apply sublist_cons, IH].
    destruct (matchAtHead r (x :: s)) as [[[|n] g]|].
    + specialize (IH 0). destruct (replaceAll r s 0). by apply sublist_skip.
    + specialize (IH n). destruct (replaceAll r s n). by apply sublist_cons.
    + specialize (IH 0). destruct (replaceAll r s 0). by apply sublist_skip.
Qed.

Lemma inPlace_drawnFrom text p : inPlace text p -> drawnFrom text p.
Proof. intros [H Hc]. exists (pieceEnd p). split; [done|]. by rewrite <- Hc. Qed.

Lemma replaceAll_drawnFrom text r p :
  drawnFrom text p ->
  drawnFrom text (mkPiece (start p) (fst (replaceAll r (content p) 0))).
Proof.
  intros (e & He & Hs). exists e. split; [done|]. cbn [start content].
  etrans; [apply replaceAll_sublist|done].
Qed.

(** X15: the regions of the result come from the text at their [start]:
    a comment or a literal is the part of the text that starts there,
    unchanged; a macro or a plain run is what is left of the part of the
    text that starts there after extraction took characters out, in the
    order of the text and with nothing added, and [start] is still the
    offset of the region before extraction. *)
Theorem regions_come_from_the_text text item :
  partition text = Done item ->
  (forall p, p ∈ comments item ++ literals item -> inPlace text p)
  /\ (forall p, p ∈ macros item ++ sources item -> drawnFrom text p).
Proof.
  intros H. apply partition_done in H as (st & Hs & ->).
  pose proof (scan_inPlace text st Hs) as Hplace. unfold regions in Hplace.
  rewrite assemble_eq. cbn [macros sources comments literals].
  rewrite !forEachReplace_fst. split; intros p Hp.
  - apply Hplace. rewrite !elem_of_app in *.
    destruct Hp as [Hp|Hp]; apply list_elem_of_filter in Hp as [_ Hp]; tauto.
  - apply elem_of_app in Hp as [Hp|Hp].
    + apply list_elem_of_fmap in Hp as (q & -> & Hq).
      apply replaceAll_drawnFrom, inPlace_drawnFrom, Hplace.
      rewrite !elem_of_app. tauto.
    + apply list_elem_of_filter in Hp as [_ Hp].
      apply list_elem_of_fmap in Hp as (q & -> & Hq).
      apply list_elem_of_fmap in Hq as (q' & -> & Hq).
      apply (replaceAll_drawnFrom text getTypedefRegex
               (mkPiece (start q') (fst (replaceAll getNamespaceRegex (content q') 0)))).
      apply replaceAll_drawnFrom, inPlace_drawnFrom, Hplace.
      rewrite !elem_of_app. tauto.
Qed.

Lemma regions_come_from_the_text_witness :
  let text := txt "using namespace a;int x; /*c*/" in
  let item := match partition text with
              | Done item => item
              | _ => assemble emptyScan
              end in
  partition text = Done item
  /\ sources item = [mkPiece 0 (txt "int x;")]
  /\ (forall p, p ∈ comments item ++ literals item -> inPlace text p)
  /\ (forall p, p ∈ macros item ++ sources item -> drawnFrom text p).
Proof.
  intros text item.
  assert (H : partition text = Done item) by (vm_compute; reflexivity).
  split; [exact H|]. split; [vm_compute; reflexivity|].
  exact (regions_come_from_the_text text item H).
Defined.
